(** * Normalizing-flow and VAE templates (assignment_3/code): a shallow embedding

    Source files:
      - assignment_3/code/a3_nf_template.py  (log_prior, get_mask, Coupling,
        Flow, Model)
      - assignment_3/code/a3_vae_template.py (Encoder, VAE.sample, epoch_iter)

    Number model.  A tensor entry is a [num]: either a real number [Fin r]
    or one of the three IEEE special values (+inf, -inf, NaN).  Arithmetic
    on [Fin] values is exact real arithmetic (rounding, overflow and signed
    zeros are not modelled); the special values follow the IEEE rules that
    torch implements, so that [torch.log] of a non-positive entry, or
    [0 * inf], is visible in the model as a non-finite result.

    Tensor model.  A 1-D tensor is a [vec] (list of entries), a 2-D tensor of
    shape [B, D] is a [mat] (list of B rows, each of length D).  Shape errors
    raised by torch on ill-shaped operands are outside the model: theorems
    carry the shape conditions the constructors and the data model fix. *)

From Stdlib Require Import Reals Lra List Bool Arith Lia ZArith.
Import ListNotations.
Open Scope R_scope.

(** ** Scalars *)

Inductive num : Type :=
| Fin (r : R)
| PInf
| NInf
| NaN.

Definition is_fin (a : num) : Prop :=
  match a with Fin _ => True | _ => False end.

(** Three-way case split on the sign of a real. *)
Definition sign_case {A : Type} (r : R) (neg zero pos : A) : A :=
  match total_order_T r 0 with
  | inleft (left _) => neg
  | inleft (right _) => zero
  | inright _ => pos
  end.

Definition nadd (a b : num) : num :=
  match a, b with
  | NaN, _ => NaN
  | _, NaN => NaN
  | Fin x, Fin y => Fin (x + y)
  | Fin _, PInf => PInf
  | Fin _, NInf => NInf
  | PInf, Fin _ => PInf
  | NInf, Fin _ => NInf
  | PInf, PInf => PInf
  | NInf, NInf => NInf
  | PInf, NInf => NaN
  | NInf, PInf => NaN
  end.

Definition nneg (a : num) : num :=
  match a with
  | Fin x => Fin (- x)
  | PInf => NInf
  | NInf => PInf
  | NaN => NaN
  end.

Definition nsub (a b : num) : num := nadd a (nneg b).

Definition nmul (a b : num) : num :=
  match a, b with
  | NaN, _ => NaN
  | _, NaN => NaN
  | Fin x, Fin y => Fin (x * y)
  | Fin x, PInf => sign_case x NInf NaN PInf
  | Fin x, NInf => sign_case x PInf NaN NInf
  | PInf, Fin y => sign_case y NInf NaN PInf
  | NInf, Fin y => sign_case y PInf NaN NInf
  | PInf, PInf => PInf
  | NInf, NInf => PInf
  | PInf, NInf => NInf
  | NInf, PInf => NInf
  end.

Definition ndiv (a b : num) : num :=
  match a, b with
  | NaN, _ => NaN
  | _, NaN => NaN
  | Fin x, Fin y =>
      sign_case y (Fin (x / y)) (sign_case x NInf NaN PInf) (Fin (x / y))
  | Fin _, PInf => Fin 0
  | Fin _, NInf => Fin 0
  | PInf, Fin y => sign_case y NInf PInf PInf
  | NInf, Fin y => sign_case y PInf NInf NInf
  | PInf, PInf => NaN
  | PInf, NInf => NaN
  | NInf, PInf => NaN
  | NInf, NInf => NaN
  end.

(** torch.exp *)
Definition nexp (a : num) : num :=
  match a with
  | Fin x => Fin (exp x)
  | PInf => PInf
  | NInf => Fin 0
  | NaN => NaN
  end.

(** torch.log: -inf at 0, NaN below 0. *)
Definition nlog (a : num) : num :=
  match a with
  | Fin x => sign_case x NaN NInf (Fin (ln x))
  | PInf => PInf
  | NInf => NaN
  | NaN => NaN
  end.

(** torch.tanh *)
Definition ntanh (a : num) : num :=
  match a with
  | Fin x => Fin (tanh x)
  | PInf => Fin 1
  | NInf => Fin (-1)
  | NaN => NaN
  end.

(** torch.sigmoid *)
Definition nsigmoid (a : num) : num :=
  match a with
  | Fin x => Fin (1 / (1 + exp (- x)))
  | PInf => Fin 1
  | NInf => Fin 0
  | NaN => NaN
  end.

(** nn.ReLU: max(0, x) *)
Definition nrelu (a : num) : num :=
  match a with
  | Fin x => Fin (Rmax 0 x)
  | PInf => PInf
  | NInf => Fin 0
  | NaN => NaN
  end.

(** ** Tensors *)

Definition vec : Type := list num.
Definition mat : Type := list vec.

Fixpoint zip_with {A B C : Type} (f : A -> B -> C) (l1 : list A) (l2 : list B)
  : list C :=
  match l1, l2 with
  | a :: l1', b :: l2' => f a b :: zip_with f l1' l2'
  | _, _ => []
  end.

Definition vadd : vec -> vec -> vec := zip_with nadd.
Definition vsub : vec -> vec -> vec := zip_with nsub.
Definition vmul : vec -> vec -> vec := zip_with nmul.

Definition tadd : mat -> mat -> mat := zip_with vadd.
Definition tsub : mat -> mat -> mat := zip_with vsub.
Definition tmul : mat -> mat -> mat := zip_with vmul.

(** Elementwise map over a 2-D tensor. *)
Definition tmap (f : num -> num) (m : mat) : mat := map (map f) m.

(** [x * row] with [row] of shape (1, D) broadcast over the batch. *)
Definition tmul_row (m : mat) (row : vec) : mat :=
  map (fun r => vmul r row) m.

(** [1 - x] on a 1-D tensor. *)
Definition one_minus (v : vec) : vec := map (fun a => nsub (Fin 1) a) v.

(** [x.sum()] of a 1-D tensor. *)
Definition nsum (v : vec) : num := fold_right nadd (Fin 0) v.

(** [x.sum(-1)] / [torch.sum(x, dim=1)] of a 2-D tensor. *)
Definition tsum_rows (m : mat) : vec := map nsum m.

Definition zeros (n : nat) : vec := repeat (Fin 0) n.

Definition dot (x w : vec) : num := nsum (vmul x w).

(** Shape and finiteness predicates. *)
Definition shape (m : mat) (B D : nat) : Prop :=
  length m = B /\ Forall (fun r => length r = D) m.

Definition vfin (v : vec) : Prop := Forall is_fin v.
Definition tfin (m : mat) : Prop := Forall vfin m.

(** A binary mask: every entry is 0 or 1. *)
Definition binary (v : vec) : Prop :=
  Forall (fun a => a = Fin 0 \/ a = Fin 1) v.

(** ** torch.nn layers used by both files *)

(** [nn.Linear(in, out)]: weight of shape (out, in), bias of shape (out). *)
Record Linear : Type := { weight : mat; bias : vec }.

(** [y = x W^T + b] on a batch. *)
Definition Linear_forward (l : Linear) (x : mat) : mat :=
  map (fun r => vadd (map (dot r) (weight l)) (bias l)) x.

Definition ReLU : mat -> mat := tmap nrelu.

(** A linear layer after [weight.data.zero_()] and [bias.data.zero_()]. *)
Definition zero_linear (n_out n_in : nat) : Linear :=
  {| weight := repeat (zeros n_in) n_out; bias := zeros n_out |}.

(** Shape of an [nn.Linear(n_in, n_out)], and finiteness of its parameters. *)
Definition wf_linear (n_out n_in : nat) (l : Linear) : Prop :=
  shape (weight l) n_out n_in /\ length (bias l) = n_out.

Definition fin_linear (l : Linear) : Prop :=
  tfin (weight l) /\ vfin (bias l).

(** ** a3_nf_template.py *)

Module NF.

(** [log_prior(x)]: elementwise [- 0.5 * (log(2 * pi) + x ** 2)]. *)
Definition log_prior (x : mat) : mat :=
  tmap (fun a => nmul (Fin (- (1 / 2))) (nadd (Fin (ln (2 * PI))) (nmul a a))) x.

(** [get_mask()]: the 28 x 28 checkerboard, reshaped to (1, 784) in row-major
    order; the single row is kept. *)
Definition get_mask : vec :=
  flat_map
    (fun i => map (fun j => if Nat.eqb ((i + j) mod 2) 0 then Fin 1 else Fin 0)
                  (seq 0 28))
    (seq 0 28).

(** [Coupling]: the mask buffer and the three linear layers nn[0], nn[2],
    nn[4] of the Sequential (nn[1] and nn[3] are ReLU). *)
Record Coupling : Type := {
  c_in : nat;
  n_hidden : nat;
  mask : vec;
  nn_0 : Linear;
  nn_2 : Linear;
  nn_4 : Linear
}.

(** [Coupling.__init__]: [l0] and [l2] are the freshly (randomly) initialised
    first two linear layers; the last layer is zeroed. *)
Definition Coupling_init (c n : nat) (m : vec) (l0 l2 : Linear) : Coupling :=
  {| c_in := c; n_hidden := n; mask := m;
     nn_0 := l0; nn_2 := l2; nn_4 := zero_linear (2 * c) n |}.

Definition Coupling_nn (c : Coupling) (x : mat) : mat :=
  Linear_forward (nn_4 c)
    (ReLU (Linear_forward (nn_2 c) (ReLU (Linear_forward (nn_0 c) x)))).

(** [x.chunk(2, -1)]: two chunks of size ceil(n / 2) along the last axis. *)
Definition chunk2 (x : mat) : mat * mat :=
  (map (fun r => firstn (Nat.div2 (S (length r))) r) x,
   map (fun r => skipn (Nat.div2 (S (length r))) r) x).

(** [Coupling.forward(z, ldj, reverse)].  The in-place update [ldj += ...]
    is rendered as rebinding. *)
Definition Coupling_forward (c : Coupling) (z : mat) (ldj : vec)
           (reverse : bool) : mat * vec :=
  let (s, t) := chunk2 (Coupling_nn c (tmul_row z (mask c))) in
  let log_scale := tmul_row (tmap ntanh s) (one_minus (mask c)) in
  let t := tmul_row t (one_minus (mask c)) in
  if negb reverse then
    let z := tmul (tmap nexp log_scale) (tadd z t) in
    let ldj := vadd ldj (tsum_rows log_scale) in
    (z, ldj)
  else
    let z := tsub (tmul (tmap nexp (tmap (fun a => nmul a (Fin (-1))) log_scale)) z) t in
    (z, ldj).

Record Flow : Type := { layers : list Coupling; z_shape : nat }.

(** [Flow.__init__(shape=(channels,), n_flows)]: iteration [i] appends one
    layer on the mask and one on its complement, both with the default
    [n_hidden = 1024]; [inits i] carries the freshly initialised first two
    linear layers of the two Couplings of iteration [i]. *)
Definition Flow_init (channels n_flows : nat)
           (inits : nat -> (Linear * Linear) * (Linear * Linear)) : Flow :=
  {| layers :=
       flat_map (fun i =>
                   [Coupling_init channels 1024 get_mask
                                  (fst (fst (inits i))) (snd (fst (inits i)));
                    Coupling_init channels 1024 (one_minus get_mask)
                                  (fst (snd (inits i))) (snd (snd (inits i)))])
                (seq 0 n_flows);
     z_shape := channels |}.

(** [Flow.forward(z, logdet, reverse)]. *)
Definition Flow_forward (f : Flow) (z : mat) (logdet : vec) (reverse : bool)
  : mat * vec :=
  if negb reverse then
    fold_left (fun st layer => Coupling_forward layer (fst st) (snd st) false)
              (layers f) (z, logdet)
  else
    fold_left (fun st layer => Coupling_forward layer (fst st) (snd st) true)
              (rev (layers f)) (z, logdet).

Record Model : Type := { flow : Flow }.

(** [Model.__init__(shape)]: [Flow(shape)] with the default [n_flows = 4]. *)
Definition Model_init (channels : nat)
           (inits : nat -> (Linear * Linear) * (Linear * Linear)) : Model :=
  {| flow := Flow_init channels 4 inits |}.

(** [dequantize]: [u] is the draw of [torch.rand_like(z)]. *)
Definition dequantize (z u : mat) : mat := tadd z u.

Definition alpha : R := 1 / 100000.

(** [np.log(256) * np.prod(z.size()[1:])], broadcast over the batch. *)
Definition log256_term (z : mat) : vec :=
  map (fun r => Fin (ln 256 * INR (length r))) z.

(** The accumulator adjustment of the logit step,
    [torch.sum(-torch.log(z) - torch.log(1-z), dim=1)], and of the sigmoid
    step, [torch.sum(torch.log(z) + torch.log(1-z), dim=1)]. *)
Definition ldj_logit (z : mat) : vec :=
  tsum_rows (tmap (fun a => nsub (nneg (nlog a)) (nlog (nsub (Fin 1) a))) z).
Definition ldj_sigmoid (z : mat) : vec :=
  tsum_rows (tmap (fun a => nadd (nlog a) (nlog (nsub (Fin 1) a))) z).

(** [Model.logit_normalize(z, logdet, reverse)].  The in-place updates
    [logdet -= ...] and [logdet += ...] are rendered as rebinding. *)
Definition logit_normalize (z : mat) (logdet : vec) (reverse : bool)
  : mat * vec :=
  if negb reverse then
    let z := tmap (fun a => ndiv a (Fin 256)) z in
    let logdet := vsub logdet (log256_term z) in
    let z := tmap (fun a => nadd (nmul a (Fin (1 - alpha))) (Fin (alpha * (1 / 2)))) z in
    let logdet := vadd logdet (ldj_logit z) in
    let z := tmap (fun a => nsub (nlog a) (nlog (nsub (Fin 1) a))) z in
    (z, logdet)
  else
    let logdet := vadd logdet (ldj_sigmoid z) in
    let z := tmap nsigmoid z in
    let z := tmap (fun a => nmul a (Fin 256)) z in
    let logdet := vadd logdet (log256_term z) in
    (z, logdet).

(** [Model.forward(input)]; [u] is the dequantization noise. *)
Definition Model_forward (m : Model) (input u : mat) : vec :=
  let z := input in
  let ldj := zeros (length z) in
  let z := dequantize z u in
  let (z, ldj) := logit_normalize z ldj false in
  let (z, ldj) := Flow_forward (flow m) z ldj false in
  vadd (tsum_rows (log_prior z)) ldj.

(** [Model.sample(n_samples)]; [eps] is the draw of
    [sample_prior((n_samples,) + z_shape)]. *)
Definition Model_sample (m : Model) (n_samples : nat) (eps : mat) : mat :=
  let z := eps in
  let ldj := zeros n_samples in
  let (z, ldj) := Flow_forward (flow m) z ldj true in
  let (z, ldj) := logit_normalize z ldj true in
  z.

(** Shapes fixed by the constructors. *)
Definition wf_coupling (c : Coupling) : Prop :=
  length (mask c) = c_in c /\
  wf_linear (n_hidden c) (c_in c) (nn_0 c) /\
  wf_linear (n_hidden c) (n_hidden c) (nn_2 c) /\
  wf_linear (2 * c_in c) (n_hidden c) (nn_4 c).

Definition fin_coupling (c : Coupling) : Prop :=
  vfin (mask c) /\ fin_linear (nn_0 c) /\ fin_linear (nn_2 c) /\
  fin_linear (nn_4 c).

(** The state of the last layer right after [Coupling.__init__]. *)
Definition zero_last (c : Coupling) : Prop :=
  nn_4 c = zero_linear (2 * c_in c) (n_hidden c).

(** A layer of width [D] in its initial state. *)
Definition id_layer (D : nat) (c : Coupling) : Prop :=
  wf_coupling c /\ fin_coupling c /\ zero_last c /\ c_in c = D.

(** A layer of width [D] with real-valued parameters. *)
Definition flow_layer (D : nat) (c : Coupling) : Prop :=
  wf_coupling c /\ fin_coupling c /\ c_in c = D.

(** A real-valued state [(z, ldj)] of shape ([B, D], [B]). *)
Definition state_ok (B D : nat) (st : mat * vec) : Prop :=
  shape (fst st) B D /\ tfin (fst st) /\ length (snd st) = B /\ vfin (snd st).

(** Every entry is a real number satisfying [P]. *)
Definition vrange (P : R -> Prop) (v : vec) : Prop :=
  Forall (fun a => exists x, a = Fin x /\ P x) v.

Definition trange (P : R -> Prop) (m : mat) : Prop := Forall (vrange P) m.


(** Real-valued shadows of the two elementwise maps of the forward
    [logit_normalize]: the rescaling [z / 256 * (1 - alpha) + alpha * 0.5]
    and the logit [log(z) - log(1 - z)]. *)
Definition squash (x : R) : R := x / 256 * (1 - alpha) + alpha * (1 / 2).
Definition logit (p : R) : R := ln p + - ln (1 + - p).

(** Entry [b, i] of a 2-D tensor, when it exists. *)
Definition entry (m : mat) (b i : nat) : option num :=
  match nth_error m b with
  | Some r => nth_error r i
  | None => None
  end.

(** Row-wise view of the coupling layer: every operation of
    [Coupling_forward] acts on each example of the batch independently. *)
Definition linear_row (l : Linear) (r : vec) : vec :=
  vadd (map (dot r) (weight l)) (bias l).

Definition nn_row (c : Coupling) (r : vec) : vec :=
  linear_row (nn_4 c)
    (map nrelu (linear_row (nn_2 c) (map nrelu (linear_row (nn_0 c) r)))).

Definition half (r : vec) : nat := Nat.div2 (S (length r)).

Definition row_s (c : Coupling) (r : vec) : vec :=
  firstn (half (nn_row c (vmul r (mask c)))) (nn_row c (vmul r (mask c))).

Definition row_t_raw (c : Coupling) (r : vec) : vec :=
  skipn (half (nn_row c (vmul r (mask c)))) (nn_row c (vmul r (mask c))).

Definition row_log_scale (c : Coupling) (r : vec) : vec :=
  vmul (map ntanh (row_s c r)) (one_minus (mask c)).

Definition row_t (c : Coupling) (r : vec) : vec :=
  vmul (row_t_raw c r) (one_minus (mask c)).

Definition row_fwd (c : Coupling) (r : vec) : vec :=
  vmul (map nexp (row_log_scale c r)) (vadd r (row_t c r)).

Definition row_rev (c : Coupling) (r : vec) : vec :=
  vsub (vmul (map nexp (map (fun a => nmul a (Fin (-1))) (row_log_scale c r))) r)
       (row_t c r).

(** The inverse direction as the design text of the coupling transform words
    it: [z' = exp(-log_scale) * z - t] with
    [log_scale = tanh(scale_raw) * (1 - mask)], [t = translate_raw * (1 - mask)]
    and [(scale_raw, translate_raw)] the two chunks of the network output on
    [z * mask]. *)
Definition spec_scale_raw (c : Coupling) (z : mat) : mat :=
  fst (chunk2 (Coupling_nn c (tmul_row z (mask c)))).

Definition spec_translate_raw (c : Coupling) (z : mat) : mat :=
  snd (chunk2 (Coupling_nn c (tmul_row z (mask c)))).

Definition spec_log_scale (c : Coupling) (z : mat) : mat :=
  tmul_row (tmap ntanh (spec_scale_raw c z)) (one_minus (mask c)).

Definition spec_t (c : Coupling) (z : mat) : mat :=
  tmul_row (spec_translate_raw c z) (one_minus (mask c)).

Definition spec_inverse (c : Coupling) (z : mat) : mat :=
  tsub (tmul (tmap nexp (tmap nneg (spec_log_scale c z))) z) (spec_t c z).

(** Concrete instances on which the theorems below are exercised. *)

(** A linear layer with constant weight [w] and constant bias [b]. *)
Definition const_linear (n_out n_in : nat) (w b : R) : Linear :=
  {| weight := repeat (repeat (Fin w) n_in) n_out; bias := repeat (Fin b) n_out |}.

(** A two-wide layer with mask [1, 0] and a non-zero last layer. *)
Definition small_coupling : Coupling :=
  {| c_in := 2; n_hidden := 1; mask := [Fin 1; Fin 0];
     nn_0 := {| weight := [[Fin 1; Fin 1]]; bias := [Fin 0] |};
     nn_2 := {| weight := [[Fin 1]]; bias := [Fin 0] |};
     nn_4 := {| weight := [[Fin 1]; [Fin 0]; [Fin 0]; [Fin 1]];
                bias := [Fin 0; Fin 0; Fin 0; Fin 0] |} |}.

Definition small_batch : mat := [[Fin 2; Fin 3]].

(** Initial first two layers of every Coupling of a 784-wide flow. *)
Definition const_inits (i : nat) : (Linear * Linear) * (Linear * Linear) :=
  ((const_linear 1024 784 1 0, const_linear 1024 1024 1 0),
   (const_linear 1024 784 1 0, const_linear 1024 1024 1 0)).

Definition init_layer_a : Coupling :=
  Coupling_init 784 1024 get_mask
                (const_linear 1024 784 1 0) (const_linear 1024 1024 1 0).

Definition init_layer_b : Coupling :=
  Coupling_init 784 1024 (one_minus get_mask)
                (const_linear 1024 784 1 0) (const_linear 1024 1024 1 0).

(** A batch of [B] identical examples of dimension 784. *)
Definition const_batch (B : nat) (x : R) : mat := repeat (repeat (Fin x) 784) B.

End NF.

(** ** a3_vae_template.py *)

Module VAE.

Record Encoder : Type := {
  linear1 : Linear;
  linear_mu : Linear;
  linear_std : Linear
}.

(** [Encoder.forward(input)]: returns [(mean, std)]. *)
Definition Encoder_forward (e : Encoder) (input : mat) : mat * mat :=
  let input := ReLU (Linear_forward (linear1 e) input) in
  let mean := Linear_forward (linear_mu e) input in
  let std := ReLU (Linear_forward (linear_std e) input) in
  (mean, std).

(** Shapes of [Encoder.__init__(hidden_dim, z_dim)]. *)
Definition wf_encoder (hidden_dim z_dim : nat) (e : Encoder) : Prop :=
  wf_linear hidden_dim (28 * 28) (linear1 e) /\
  wf_linear z_dim hidden_dim (linear_mu e) /\
  wf_linear z_dim hidden_dim (linear_std e).

(** Python exceptions and a state-and-exception monad: a computation takes
    the program state and returns a value or a raised exception, with the
    state it leaves behind. *)
Inductive exn : Type := NotImplementedError.

Inductive result (A : Type) : Type :=
| Ok (a : A)
| Raised (e : exn).
Arguments Ok {A} a.
Arguments Raised {A} e.

Definition M (S A : Type) : Type := S -> result A * S.

Definition ret {S A : Type} (a : A) : M S A := fun s => (Ok a, s).

Definition raise {S A : Type} (e : exn) : M S A := fun s => (Raised e, s).

Definition bind {S A B : Type} (m : M S A) (k : A -> M S B) : M S B :=
  fun s => match m s with
           | (Ok a, s') => k a s'
           | (Raised e, s') => (Raised e, s')
           end.

Notation "x <- m ;; k" := (bind m (fun x => k))
  (at level 61, m at next level, right associativity).
Notation "m ;;; k" := (bind m (fun _ => k))
  (at level 61, right associativity).

(** [VAE.sample(self, n_samples)]; the state is whatever the program holds
    (the model, its parameters and mode flag). *)
Definition VAE_sample {S : Type} (n_samples : nat)
  : M S (option mat * option mat) :=
  let sampled_ims : option mat := None in
  let im_means : option mat := None in
  raise (A := unit) NotImplementedError ;;;
  ret (sampled_ims, im_means).

(** [epoch_iter(model, data, optimizer)] of the VAE file. *)
Definition epoch_iter {S Mod Data Opt : Type}
           (model : Mod) (data : Data) (optimizer : Opt) : M S (option num) :=
  let average_epoch_elbo : option num := None in
  raise (A := unit) NotImplementedError ;;;
  ret average_epoch_elbo.

(** The default architecture [Encoder(hidden_dim=500, z_dim=20)] with a
    zero first layer and a std head of zero weights and bias -1. *)
Definition dead_std_encoder : Encoder :=
  {| linear1 := zero_linear 500 (28 * 28);
     linear_mu := zero_linear 20 500;
     linear_std := {| weight := repeat (zeros 500) 20;
                      bias := repeat (Fin (-1)) 20 |} |}.

(** A blank image. *)
Definition blank_image : mat := [zeros (28 * 28)].

End VAE.

(** ** Further operations of the two files *)

(** torch.sqrt: NaN below 0. *)
Definition nsqrt (a : num) : num :=
  match a with
  | Fin x => sign_case x NaN (Fin (sqrt x)) (Fin (sqrt x))
  | PInf => PInf
  | NInf => NaN
  | NaN => NaN
  end.

(** [x.mean()] of a 1-D tensor: the sum over the number of entries (NaN on
    an empty tensor, as 0 / 0). *)
Definition nmean (v : vec) : num := ndiv (nsum v) (Fin (INR (length v))).

(** ** a3_nf_template.py: the epoch driver *)

Module NFTrain.

Import NF.

(** The one exception the driver itself can raise. *)
Inductive exn : Type := UnboundLocalError.

(** What the loop of [epoch_iter] threads along: the model, its mode flag
    [model.training] and the optimizer. *)
Record World (Opt : Type) : Type := {
  model : Model;
  training : bool;
  optimizer : Opt
}.
Arguments model {Opt} w.
Arguments training {Opt} w.
Arguments optimizer {Opt} w.

Definition set_training {Opt : Type} (b : bool) (w : World Opt) : World Opt :=
  {| model := model w; training := b; optimizer := optimizer w |}.

Section Driver.

Variable Opt : Type.

(** The effect of [log_px.backward()], [clip_grad_norm_], [optimizer.step()]
    and [optimizer.zero_grad()] on the parameters and on the optimizer, for
    one batch [images] with dequantization draw [u]; the autodiff and the
    optimizer are external. *)
Variable update : Model -> Opt -> mat -> mat -> Model * Opt.

(** [- model(images).mean() / 784]. *)
Definition batch_loss (m : Model) (images u : mat) : num :=
  ndiv (nneg (nmean (Model_forward m images u))) (Fin 784).

(** Local variables of the loop: [idx] is unbound until the first
    iteration. *)
Record Locals : Type := {
  world : World Opt;
  avg_bpd : num;
  idx : option nat
}.

(** One iteration; an item is the enumeration index with the batch, a batch
    being the images with the dequantization draw of this pass (the label is
    discarded). *)
Definition loop_body (st : Locals) (item : nat * (mat * mat)) : Locals :=
  let w := world st in
  let images := fst (snd item) in
  let u := snd (snd item) in
  let log_px := batch_loss (model w) images u in
  let w' :=
    if training w then
      {| model := fst (update (model w) (optimizer w) images u);
         training := training w;
         optimizer := snd (update (model w) (optimizer w) images u) |}
    else w in
  {| world := w';
     avg_bpd := nadd (avg_bpd st) (ndiv log_px (Fin (ln 2)));
     idx := Some (fst item) |}.

(** [epoch_iter(model, data, optimizer)] of the flow file: the final world,
    with the raised exception or the returned average. *)
Definition epoch_iter (w : World Opt) (data : list (mat * mat))
  : World Opt * (exn + num) :=
  let st := fold_left loop_body (combine (seq 0 (length data)) data)
                      {| world := w; avg_bpd := Fin 0; idx := None |} in
  match idx st with
  | None => (world st, inl UnboundLocalError)
  | Some i => (world st, inr (ndiv (avg_bpd st) (Fin (INR (i + 1)))))
  end.

(** [run_epoch(model, data, optimizer)] of the flow file. *)
Definition run_epoch (w : World Opt) (data : list (mat * mat) * list (mat * mat))
  : World Opt * (exn + (num * num)) :=
  let traindata := fst data in
  let valdata := snd data in
  let w := set_training true w in
  match epoch_iter w traindata with
  | (w, inl e) => (w, inl e)
  | (w, inr train_bpd) =>
      let w := set_training false w in
      match epoch_iter w valdata with
      | (w, inl e) => (w, inl e)
      | (w, inr val_bpd) => (w, inr (train_bpd, val_bpd))
      end
  end.

(** Bits per dimension of one batch under fixed parameters. *)
Definition batch_bpd (m : Model) (b : mat * mat) : num :=
  ndiv (batch_loss m (fst b) (snd b)) (Fin (ln 2)).

End Driver.

End NFTrain.

(** ** a3_vae_template.py: decoder, KL term and run_epoch *)

Module VAEMore.

Import VAE.

Record Decoder : Type := {
  linear1 : Linear;
  linear2 : Linear
}.

(** [Decoder.forward(input)]. *)
Definition Decoder_forward (d : Decoder) (input : mat) : mat :=
  let mean := ReLU (Linear_forward (linear1 d) input) in
  let mean := ReLU (Linear_forward (linear2 d) mean) in
  mean.

(** One entry of [kl_divergence(mean, std)]:
    [log(1 / sqrt(std)) + (std + mean ** 2) / (2 * std) - 0.5]. *)
Definition kl_elem (mean std : num) : num :=
  nsub (nadd (nlog (ndiv (Fin 1) (nsqrt std)))
             (ndiv (nadd std (nmul mean mean)) (nmul (Fin 2) std)))
       (Fin (1 / 2)).

(** [kl_divergence(mean, std)], the local function of [VAE.forward]. *)
Definition kl_divergence (mean std : mat) : mat :=
  zip_with (zip_with kl_elem) mean std.

(** The VAE module object: sub-modules and the mode flag of [nn.Module]. *)
Record VAE : Type := {
  z_dim : nat;
  encoder : Encoder;
  decoder : Decoder;
  training : bool
}.

(** [model.train()] and [model.eval()]. *)
Definition set_mode (b : bool) : M VAE unit :=
  fun s => (Ok tt, {| z_dim := z_dim s; encoder := encoder s;
                      decoder := decoder s; training := b |}).

(** [run_epoch(model, data, optimizer)] of the VAE file.  The model object
    is the state of the computation; the stub [epoch_iter] ignores the
    reference it is handed. *)
Definition run_epoch {Data Opt : Type} (data : Data * Data) (optimizer : Opt)
  : M VAE (option num * option num) :=
  let traindata := fst data in
  let valdata := snd data in
  set_mode true ;;;
  train_elbo <- epoch_iter tt traindata optimizer ;;
  set_mode false ;;;
  val_elbo <- epoch_iter tt valdata optimizer ;;
  ret (train_elbo, val_elbo).

End VAEMore.

(** ** More concrete instances *)

(** The two-wide layer on the complementary mask [0, 1], and the flow of
    the two. *)
Definition small_coupling_swapped : NF.Coupling :=
  {| NF.c_in := 2; NF.n_hidden := 1; NF.mask := [Fin 0; Fin 1];
     NF.nn_0 := {| weight := [[Fin 1; Fin 1]]; bias := [Fin 0] |};
     NF.nn_2 := {| weight := [[Fin 1]]; bias := [Fin 0] |};
     NF.nn_4 := {| weight := [[Fin 1]; [Fin 0]; [Fin 0]; [Fin 1]];
                   bias := [Fin 0; Fin 0; Fin 0; Fin 0] |} |}.

Definition small_flow : NF.Flow :=
  {| NF.layers := [NF.small_coupling; small_coupling_swapped]; NF.z_shape := 2 |}.

(** Shapes of [Decoder.__init__(hidden_dim, z_dim)]. *)
Definition wf_decoder (hidden_dim z_dim : nat) (d : VAEMore.Decoder) : Prop :=
  wf_linear hidden_dim z_dim (VAEMore.linear1 d) /\
  wf_linear (28 * 28) hidden_dim (VAEMore.linear2 d).

(** Entry by entry, [b] is a real number within [K] of the real number
    [a]. *)
Definition within (K : R) (a b : num) : Prop :=
  exists x y, a = Fin x /\ b = Fin y /\ Rabs (y - x) <= K.

(** * Properties *)

Import NF.

(** ** Scalar facts *)

Lemma sign_case_pos {A : Type} (r : R) (a b c : A) :
  0 < r -> sign_case r a b c = c.
Proof.
  intros H. unfold sign_case.
  destruct (total_order_T r 0) as [[Hlt | Heq] | Hgt]; [lra | lra | reflexivity].
Qed.

Lemma sign_case_zero {A : Type} (a b c : A) : sign_case 0 a b c = b.
Proof.
  unfold sign_case.
  destruct (total_order_T 0 0) as [[Hlt | Heq] | Hgt]; [lra | reflexivity | lra].
Qed.

Lemma sign_case_neg {A : Type} (r : R) (a b c : A) :
  r < 0 -> sign_case r a b c = a.
Proof.
  intros H. unfold sign_case.
  destruct (total_order_T r 0) as [[Hlt | Heq] | Hgt]; [reflexivity | lra | lra].
Qed.

Lemma is_fin_inv (a : num) : is_fin a -> exists r, a = Fin r.
Proof. destruct a; simpl; intros H; try contradiction. now exists r. Qed.

Lemma nmul_neg1 (a : num) : nmul a (Fin (-1)) = nneg a.
Proof.
  destruct a; simpl; try reflexivity.
  - f_equal. ring.
  - apply sign_case_neg. lra.
  - apply sign_case_neg. lra.
Qed.

Lemma nadd_zero_r (a : num) : nadd a (Fin 0) = a.
Proof. destruct a; simpl; try reflexivity. f_equal. ring. Qed.

Lemma nadd_fin (a b : num) : is_fin a -> is_fin b -> is_fin (nadd a b).
Proof. destruct a, b; simpl; tauto. Qed.

Lemma nmul_fin (a b : num) : is_fin a -> is_fin b -> is_fin (nmul a b).
Proof. destruct a, b; simpl; tauto. Qed.

Lemma nneg_fin (a : num) : is_fin a -> is_fin (nneg a).
Proof. destruct a; simpl; tauto. Qed.

Lemma nsub_fin (a b : num) : is_fin a -> is_fin b -> is_fin (nsub a b).
Proof. intros. apply nadd_fin; [assumption | now apply nneg_fin]. Qed.

Lemma nexp_fin (a : num) : is_fin a -> is_fin (nexp a).
Proof. destruct a; simpl; tauto. Qed.

Lemma ntanh_fin (a : num) : is_fin a -> is_fin (ntanh a).
Proof. destruct a; simpl; tauto. Qed.

Lemma nrelu_fin (a : num) : is_fin a -> is_fin (nrelu a).
Proof. destruct a; simpl; tauto. Qed.

Lemma nsigmoid_fin (a : num) : is_fin a -> is_fin (nsigmoid a).
Proof. destruct a; simpl; tauto. Qed.

Create HintDb fin.

#[local] Hint Resolve nadd_fin nmul_fin nneg_fin nsub_fin nexp_fin ntanh_fin
  nrelu_fin nsigmoid_fin : fin.

(** ** List facts *)

Lemma zip_with_length {A B C : Type} (f : A -> B -> C) (l1 : list A) (l2 : list B) :
  length (zip_with f l1 l2) = Nat.min (length l1) (length l2).
Proof.
  revert l2. induction l1 as [| a l1 IH]; intros [| b l2]; simpl; auto.
Qed.

Lemma zip_with_map_same {A B C D : Type} (f : B -> C -> D) (g : A -> B) (h : A -> C)
      (l : list A) :
  zip_with f (map g l) (map h l) = map (fun a => f (g a) (h a)) l.
Proof. induction l as [| a l IH]; simpl; [reflexivity | now rewrite IH]. Qed.

Lemma zip_with_map_r {A B C : Type} (f : A -> B -> C) (h : A -> B) (l : list A) :
  zip_with f l (map h l) = map (fun a => f a (h a)) l.
Proof. induction l as [| a l IH]; simpl; [reflexivity | now rewrite IH]. Qed.

Lemma zip_with_fin (f : num -> num -> num) (a b : vec) :
  (forall x y, is_fin x -> is_fin y -> is_fin (f x y)) ->
  vfin a -> vfin b -> vfin (zip_with f a b).
Proof.
  intros Hf Ha. revert b.
  induction Ha as [| x a Hx Ha IH]; intros [| y b] Hb; simpl; try constructor.
  - inversion Hb; subst. now apply Hf.
  - inversion Hb; subst. now apply IH.
Qed.

Lemma map_fin (f : num -> num) (a : vec) :
  (forall x, is_fin x -> is_fin (f x)) -> vfin a -> vfin (map f a).
Proof.
  intros Hf Ha. induction Ha; simpl; constructor; auto.
Qed.

Lemma nsum_fin (a : vec) : vfin a -> is_fin (nsum a).
Proof.
  intros Ha. induction Ha; simpl; [exact I | now apply nadd_fin].
Qed.

Lemma dot_fin (x w : vec) : vfin x -> vfin w -> is_fin (dot x w).
Proof.
  intros Hx Hw. apply nsum_fin. apply zip_with_fin; auto with fin.
Qed.

Lemma zeros_fin (n : nat) : vfin (zeros n).
Proof. apply Forall_forall. intros x Hx. apply repeat_spec in Hx. now subst. Qed.

Lemma one_minus_fin (m : vec) : vfin m -> vfin (one_minus m).
Proof. apply map_fin. intros x Hx. apply nsub_fin; simpl; auto with fin. Qed.

Lemma one_minus_length (m : vec) : length (one_minus m) = length m.
Proof. apply length_map. Qed.

(** ** Row-wise view of the coupling layer *)

Lemma Linear_forward_rows (l : Linear) (x : mat) :
  Linear_forward l x = map (linear_row l) x.
Proof. reflexivity. Qed.

Lemma Coupling_nn_rows (c : Coupling) (x : mat) :
  Coupling_nn c x = map (nn_row c) x.
Proof.
  unfold Coupling_nn, ReLU, tmap, Linear_forward.
  now rewrite !map_map.
Qed.

Lemma Coupling_forward_fwd_rows (c : Coupling) (z : mat) (ldj : vec) :
  Coupling_forward c z ldj false =
  (map (row_fwd c) z, vadd ldj (map (fun r => nsum (row_log_scale c r)) z)).
Proof.
  unfold Coupling_forward, chunk2, tmul_row, tmap, tmul, tadd, tsum_rows.
  rewrite Coupling_nn_rows. simpl negb. cbv iota.
  rewrite !map_map, zip_with_map_r, zip_with_map_same.
  reflexivity.
Qed.

Lemma Coupling_forward_rev_rows (c : Coupling) (z : mat) (ldj : vec) :
  Coupling_forward c z ldj true = (map (row_rev c) z, ldj).
Proof.
  unfold Coupling_forward, chunk2, tmul_row, tmap, tmul, tsub.
  rewrite Coupling_nn_rows. simpl negb. cbv iota.
  rewrite !map_map.
  assert (E : forall (f g : vec -> vec),
             zip_with vsub (zip_with vmul (map f z) z) (map g z) =
             map (fun r => vsub (vmul (f r) r) (g r)) z).
  { intros f g. induction z as [| r z IH]; simpl; [reflexivity | now rewrite IH]. }
  rewrite E. reflexivity.
Qed.

(** C5. In reverse mode the coupling transform returns
    [z' = exp(-log_scale) * z - t], with [log_scale] and [t] as the design
    text defines them, and hands back the accumulator [ldj] it was given,
    for every input, accumulator and parameter setting. *)
Theorem coupling_reverse_formula_and_frame (c : Coupling) (z : mat) (ldj : vec) :
  Coupling_forward c z ldj true = (spec_inverse c z, ldj).
Proof.
  unfold Coupling_forward, spec_inverse, spec_t, spec_log_scale,
    spec_translate_raw, spec_scale_raw.
  destruct (chunk2 (Coupling_nn c (tmul_row z (mask c)))) as [s t].
  simpl. f_equal. f_equal. f_equal. f_equal.
  unfold tmap. apply map_ext. intros r. apply map_ext. intros a.
  apply nmul_neg1.
Qed.

(** ** The coupling network on finite inputs *)

Lemma Forall_firstn_keep {A : Type} (P : A -> Prop) (n : nat) (l : list A) :
  Forall P l -> Forall P (firstn n l).
Proof.
  intros H. revert n. induction H; intros [| n]; simpl; constructor; auto.
Qed.

Lemma Forall_skipn_keep {A : Type} (P : A -> Prop) (n : nat) (l : list A) :
  Forall P l -> Forall P (skipn n l).
Proof.
  intros H. revert n. induction H; intros [| n]; simpl; auto.
Qed.

Lemma linear_row_length (n_out n_in : nat) (l : Linear) (r : vec) :
  wf_linear n_out n_in l -> length (linear_row l r) = n_out.
Proof.
  intros [[HW _] Hb]. unfold linear_row, vadd.
  rewrite zip_with_length, length_map, HW, Hb. apply Nat.min_id.
Qed.

Lemma linear_row_fin (l : Linear) (r : vec) :
  fin_linear l -> vfin r -> vfin (linear_row l r).
Proof.
  intros [HW Hb] Hr. unfold linear_row.
  apply zip_with_fin; [apply nadd_fin | | assumption].
  unfold tfin in HW. induction HW; simpl; constructor; auto using dot_fin.
Qed.

Lemma nn_row_length (c : Coupling) (r : vec) :
  wf_coupling c -> length (nn_row c r) = (2 * c_in c)%nat.
Proof.
  intros (_ & _ & _ & H4). unfold nn_row. eapply linear_row_length; eauto.
Qed.

Lemma nn_row_fin (c : Coupling) (r : vec) :
  fin_coupling c -> vfin r -> vfin (nn_row c r).
Proof.
  intros (_ & H0 & H2 & H4) Hr. unfold nn_row.
  repeat (apply linear_row_fin || apply map_fin); auto with fin.
Qed.

Lemma half_nn_row (c : Coupling) (r : vec) :
  wf_coupling c -> half (nn_row c r) = c_in c.
Proof.
  intros H. unfold half. rewrite nn_row_length by assumption.
  apply Nat.div2_succ_double.
Qed.

Lemma row_s_length (c : Coupling) (r : vec) :
  wf_coupling c -> length (row_s c r) = c_in c.
Proof.
  intros H. unfold row_s. rewrite length_firstn, half_nn_row, nn_row_length by assumption.
  lia.
Qed.

Lemma row_t_raw_length (c : Coupling) (r : vec) :
  wf_coupling c -> length (row_t_raw c r) = c_in c.
Proof.
  intros H. unfold row_t_raw. rewrite length_skipn, half_nn_row, nn_row_length by assumption.
  lia.
Qed.

Lemma vmul_mask_fin (c : Coupling) (r : vec) :
  fin_coupling c -> vfin r -> vfin (vmul r (mask c)).
Proof.
  intros (Hm & _) Hr. apply zip_with_fin; auto using nmul_fin.
Qed.

Lemma row_s_fin (c : Coupling) (r : vec) :
  fin_coupling c -> vfin r -> vfin (row_s c r).
Proof.
  intros Hc Hr. unfold row_s. apply Forall_firstn_keep, nn_row_fin; auto using vmul_mask_fin.
Qed.

Lemma row_t_raw_fin (c : Coupling) (r : vec) :
  fin_coupling c -> vfin r -> vfin (row_t_raw c r).
Proof.
  intros Hc Hr. unfold row_t_raw. apply Forall_skipn_keep, nn_row_fin; auto using vmul_mask_fin.
Qed.

(** ** Elementwise algebra of the affine coupling *)

(** Simultaneous case split of the four rows an elementwise statement
    ranges over. *)
Ltac rows4 z s t m :=
  induction z as [| z0 z IHz]; intros [| s0 s] [| t0 t] [| m0 m];
  simpl; intros; try discriminate; try lia.

(** Reduce the list skeleton only, leaving scalar operations folded. *)
Ltac lsimpl := cbn [zip_with map repeat length fold_right firstn skipn nth_error].

Ltac fin_inv :=
  repeat match goal with
         | H : vfin (_ :: _) |- _ => inversion H; subst; clear H
         | H : Forall _ (_ :: _) |- _ => inversion H; subst; clear H
         | H : is_fin ?a |- _ =>
             let r := fresh "r" in
             destruct (is_fin_inv a H) as [r ->]; clear H
         end.

Lemma exp_cancel (x : R) : exp (x * -1) * exp x = 1.
Proof.
  rewrite <- exp_plus. replace (x * -1 + x) with 0 by ring. apply exp_0.
Qed.

Lemma coupling_elem_roundtrip (z s t m : R) :
  m = 0 \/ m = 1 ->
  let ls := tanh s * (1 + - m) in
  let tt := t * (1 + - m) in
  exp (ls * -1) * (exp ls * (z + tt)) + - tt = z /\
  exp ls * (z + tt) * m = z * m.
Proof.
  intros Hm ls tt. split.
  - rewrite <- Rmult_assoc, exp_cancel. ring.
  - subst ls tt. destruct Hm as [Hm | Hm].
    + rewrite Hm. ring.
    + assert (E : tanh s * (1 + - m) = 0) by (rewrite Hm; ring).
      rewrite E, exp_0, Hm. ring.
Qed.

(** Forward then reverse on one example, with the network outputs [s], [t]
    held fixed. *)
Lemma row_roundtrip_gen (z : vec) :
  forall s t m : vec,
    length s = length z -> length t = length z -> length m = length z ->
    vfin z -> vfin s -> vfin t -> binary m ->
    let ls := vmul (map ntanh s) (one_minus m) in
    let tt := vmul t (one_minus m) in
    let z' := vmul (map nexp ls) (vadd z tt) in
    vmul z' m = vmul z m /\
    vsub (vmul (map nexp (map (fun a => nmul a (Fin (-1))) ls)) z') tt = z.
Proof.
  unfold vmul, vadd, vsub, one_minus, binary, vfin. rows4 z s t m.
  - split; reflexivity.
  - fin_inv.
    destruct (IHz s t m) as [IH1 IH2]; try lia; try assumption.
    match goal with H : _ \/ _ |- _ => rename H into Hm end.
    assert (Hm' : exists mr, m0 = Fin mr /\ (mr = 0 \/ mr = 1)).
    { destruct Hm as [-> | ->]; eexists; split; eauto. }
    destruct Hm' as (mr & -> & Hmr).
    destruct (coupling_elem_roundtrip r r0 r1 mr Hmr) as [E1 E2].
    simpl. split.
    + f_equal; [f_equal; exact E2 | exact IH1].
    + f_equal; [f_equal; exact E1 | exact IH2].
Qed.

Lemma coupling_elem_masked (z s t m : R) :
  m = 1 ->
  exp (tanh s * (1 + - m)) * (z + t * (1 + - m)) = z /\
  exp (tanh s * (1 + - m) * -1) * z + - (t * (1 + - m)) = z.
Proof.
  intros ->.
  assert (E : tanh s * (1 + - (1)) = 0) by ring.
  assert (E' : tanh s * (1 + - (1)) * -1 = 0) by ring.
  rewrite E', E, exp_0. split; ring.
Qed.

(** Coordinate [i] of one example under both directions, when the mask is 1
    there. *)
Lemma row_masked_gen (i : nat) :
  forall z s t m : vec,
    length s = length z -> length t = length z -> length m = length z ->
    vfin z -> vfin s -> vfin t ->
    nth_error m i = Some (Fin 1) ->
    let ls := vmul (map ntanh s) (one_minus m) in
    let tt := vmul t (one_minus m) in
    nth_error (vmul (map nexp ls) (vadd z tt)) i = nth_error z i /\
    nth_error (vsub (vmul (map nexp (map (fun a => nmul a (Fin (-1))) ls)) z) tt) i
    = nth_error z i.
Proof.
  unfold vmul, vadd, vsub, one_minus, vfin.
  induction i as [| i IH]; intros [| z0 z] [| s0 s] [| t0 t] [| m0 m];
    simpl; intros; try discriminate; try lia.
  - fin_inv. match goal with H : Some _ = Some _ |- _ => injection H as -> end.
    destruct (coupling_elem_masked r r0 r1 1 eq_refl) as [E1 E2].
    simpl. split; do 2 f_equal; assumption.
  - fin_inv. apply IH; try lia; assumption.
Qed.

Section CouplingLaws.

Variable c : Coupling.
Hypothesis Hwf : wf_coupling c.
Hypothesis Hfin : fin_coupling c.

Lemma mask_length : length (mask c) = c_in c.
Proof. exact (proj1 Hwf). Qed.

(** On one example, the forward direction leaves the network input
    [z * mask] unchanged and the reverse direction undoes it. *)
Lemma row_fwd_keeps_masked (r : vec) :
  binary (mask c) -> vfin r -> length r = c_in c ->
  vmul (row_fwd c r) (mask c) = vmul r (mask c).
Proof.
  intros Hb Hr Hl. unfold row_fwd, row_log_scale, row_t.
  apply (row_roundtrip_gen r (row_s c r) (row_t_raw c r) (mask c));
    rewrite ?row_s_length, ?row_t_raw_length, ?mask_length;
    auto using row_s_fin, row_t_raw_fin.
Qed.

Lemma row_rev_fwd (r : vec) :
  binary (mask c) -> vfin r -> length r = c_in c ->
  row_rev c (row_fwd c r) = r.
Proof.
  intros Hb Hr Hl.
  assert (Hs : row_s c (row_fwd c r) = row_s c r).
  { unfold row_s. now rewrite row_fwd_keeps_masked. }
  assert (Ht : row_t_raw c (row_fwd c r) = row_t_raw c r).
  { unfold row_t_raw. now rewrite row_fwd_keeps_masked. }
  unfold row_rev, row_log_scale, row_t. rewrite Hs, Ht.
  unfold row_fwd, row_log_scale, row_t.
  apply (row_roundtrip_gen r (row_s c r) (row_t_raw c r) (mask c));
    rewrite ?row_s_length, ?row_t_raw_length, ?mask_length;
    auto using row_s_fin, row_t_raw_fin.
Qed.

Lemma row_masked (r : vec) (i : nat) :
  vfin r -> length r = c_in c ->
  nth_error (mask c) i = Some (Fin 1) ->
  nth_error (row_fwd c r) i = nth_error r i /\
  nth_error (row_rev c r) i = nth_error r i.
Proof.
  intros Hr Hl Hi. unfold row_fwd, row_rev, row_log_scale, row_t.
  apply (row_masked_gen i r (row_s c r) (row_t_raw c r) (mask c));
    rewrite ?row_s_length, ?row_t_raw_length, ?mask_length;
    auto using row_s_fin, row_t_raw_fin.
Qed.

End CouplingLaws.

(** C2. For a binary mask and any (real-valued) parameter setting, any
    accumulator and any real-valued batch [z] of the layer's width, the
    forward direction followed by the reverse direction on the result
    returns the original [z]; in exact arithmetic the reconstruction is
    exact. *)
Theorem coupling_forward_then_reverse (c : Coupling) (z : mat) (ldj : vec) :
  wf_coupling c -> fin_coupling c -> binary (mask c) ->
  Forall (fun r => length r = c_in c) z -> tfin z ->
  fst (Coupling_forward c (fst (Coupling_forward c z ldj false))
                        (snd (Coupling_forward c z ldj false)) true) = z.
Proof.
  intros Hwf Hfin Hb Hsh Hz.
  rewrite Coupling_forward_fwd_rows. cbn [fst snd].
  rewrite Coupling_forward_rev_rows. cbn [fst].
  rewrite map_map.
  induction z as [| r z IH]; simpl; [reflexivity |].
  inversion Hsh; subst. inversion Hz; subst.
  rewrite row_rev_fwd by assumption. f_equal. now apply IH.
Qed.

(** C4. For any (real-valued) parameter setting, input batch and
    accumulator, every coordinate where the mask equals 1 is left unchanged
    by the coupling transform, in the forward and in the reverse direction. *)
Theorem coupling_masked_coordinates_fixed
        (c : Coupling) (z : mat) (ldj : vec) (reverse : bool) (b i : nat) :
  wf_coupling c -> fin_coupling c ->
  Forall (fun r => length r = c_in c) z -> tfin z ->
  nth_error (mask c) i = Some (Fin 1) ->
  entry (fst (Coupling_forward c z ldj reverse)) b i = entry z b i.
Proof.
  intros Hwf Hfin Hsh Hz Hi. unfold entry.
  assert (Hrow : forall r, nth_error z b = Some r ->
                           vfin r /\ length r = c_in c).
  { intros r Hr. apply nth_error_In in Hr. split.
    - unfold tfin in Hz. rewrite Forall_forall in Hz. now apply Hz.
    - rewrite Forall_forall in Hsh. now apply Hsh. }
  destruct reverse.
  - rewrite Coupling_forward_rev_rows. cbn [fst]. rewrite nth_error_map.
    destruct (nth_error z b) as [r |] eqn:E; simpl; [| reflexivity].
    destruct (Hrow r eq_refl) as [Hr Hl].
    now apply (row_masked c Hwf Hfin r i).
  - rewrite Coupling_forward_fwd_rows. cbn [fst]. rewrite nth_error_map.
    destruct (nth_error z b) as [r |] eqn:E; simpl; [| reflexivity].
    destruct (Hrow r eq_refl) as [Hr Hl].
    now apply (row_masked c Hwf Hfin r i).
Qed.

(** ** A zeroed last layer *)

Lemma tanh_zero : tanh 0 = 0.
Proof. unfold tanh. rewrite sinh_0. unfold Rdiv. ring. Qed.

Lemma firstn_repeat_add {A : Type} (x : A) (n k : nat) :
  firstn n (repeat x (n + k)) = repeat x n.
Proof. induction n as [| n IH]; simpl; [reflexivity | now rewrite IH]. Qed.

Lemma skipn_repeat_add {A : Type} (x : A) (n k : nat) :
  skipn n (repeat x (n + k)) = repeat x k.
Proof. induction n as [| n IH]; simpl; [reflexivity | exact IH]. Qed.

Lemma dot_zeros (h : vec) (n : nat) : vfin h -> dot h (zeros n) = Fin 0.
Proof.
  unfold dot, vmul, zeros. intros Hh. revert n.
  induction Hh as [| x h Hx Hh IH]; intros [| n]; simpl; try reflexivity.
  rewrite IH. destruct (is_fin_inv x Hx) as [r ->]. simpl. f_equal. ring.
Qed.

Lemma vadd_zeros_zeros (n : nat) : vadd (repeat (Fin 0) n) (zeros n) = zeros n.
Proof.
  unfold vadd, zeros. induction n as [| n IH]; simpl; [reflexivity |].
  rewrite IH. do 2 f_equal. ring.
Qed.

Lemma linear_row_zero (n_out n_in : nat) (h : vec) :
  vfin h -> linear_row (zero_linear n_out n_in) h = zeros n_out.
Proof.
  intros Hh. unfold linear_row, zero_linear. simpl.
  rewrite map_repeat, dot_zeros by assumption. apply vadd_zeros_zeros.
Qed.

Lemma nsum_zeros (n : nat) : nsum (zeros n) = Fin 0.
Proof.
  unfold nsum, zeros. induction n as [| n IH]; simpl; [reflexivity |].
  rewrite IH. simpl. f_equal. ring.
Qed.

Lemma vadd_zeros_r (v : vec) (n : nat) : length v = n -> vadd v (zeros n) = v.
Proof.
  intros <-. unfold vadd, zeros.
  induction v as [| a v IH]; simpl; [reflexivity |].
  now rewrite IH, nadd_zero_r.
Qed.

Lemma zero_scale_row (m : vec) :
  vfin m -> vmul (map ntanh (zeros (length m))) (one_minus m) = zeros (length m).
Proof.
  unfold vmul, one_minus, zeros. intros Hm.
  induction Hm as [| a m Ha Hm IH]; lsimpl; [reflexivity |].
  rewrite IH. destruct (is_fin_inv a Ha) as [r ->]. simpl.
  do 2 f_equal. rewrite tanh_zero. ring.
Qed.

Lemma zero_shift_row (m : vec) :
  vfin m -> vmul (zeros (length m)) (one_minus m) = zeros (length m).
Proof.
  unfold vmul, one_minus, zeros. intros Hm.
  induction Hm as [| a m Ha Hm IH]; lsimpl; [reflexivity |].
  rewrite IH. destruct (is_fin_inv a Ha) as [r ->]. simpl.
  do 2 f_equal. ring.
Qed.

Lemma identity_row_fwd (r : vec) :
  vfin r ->
  vmul (map nexp (zeros (length r))) (vadd r (zeros (length r))) = r.
Proof.
  unfold vmul, vadd, zeros. intros Hr.
  induction Hr as [| a r Ha Hr IH]; lsimpl; [reflexivity |].
  rewrite IH. destruct (is_fin_inv a Ha) as [x ->]. simpl.
  do 2 f_equal. rewrite exp_0. ring.
Qed.

Lemma identity_row_rev (r : vec) :
  vfin r ->
  vsub (vmul (map nexp (map (fun a => nmul a (Fin (-1))) (zeros (length r)))) r)
       (zeros (length r)) = r.
Proof.
  unfold vmul, vsub, zeros. intros Hr.
  induction Hr as [| a r Ha Hr IH]; lsimpl; [reflexivity |].
  rewrite IH. destruct (is_fin_inv a Ha) as [x ->]. simpl.
  do 2 f_equal. replace (0 * -1) with 0 by ring. rewrite exp_0. ring.
Qed.

Section ZeroLast.

Variable c : Coupling.
Hypothesis Hwf : wf_coupling c.
Hypothesis Hfin : fin_coupling c.
Hypothesis Hzero : zero_last c.

Lemma nn_row_zero (r : vec) : vfin r -> nn_row c r = zeros (2 * c_in c).
Proof.
  intros Hr. unfold nn_row. rewrite Hzero.
  destruct Hfin as (_ & H0 & H2 & _).
  apply linear_row_zero.
  repeat (apply linear_row_fin || apply map_fin || apply nrelu_fin); auto.
Qed.

Lemma row_log_scale_zero (r : vec) :
  vfin r -> row_log_scale c r = zeros (c_in c).
Proof.
  intros Hr. unfold row_log_scale, row_s, half.
  rewrite nn_row_zero by auto using vmul_mask_fin.
  unfold zeros at 1 2. rewrite repeat_length, Nat.div2_succ_double.
  replace (2 * c_in c)%nat with (c_in c + c_in c)%nat by lia.
  rewrite firstn_repeat_add. rewrite <- (mask_length c Hwf).
  apply zero_scale_row. exact (proj1 Hfin).
Qed.

Lemma row_t_zero (r : vec) : vfin r -> row_t c r = zeros (c_in c).
Proof.
  intros Hr. unfold row_t, row_t_raw, half.
  rewrite nn_row_zero by auto using vmul_mask_fin.
  unfold zeros at 1 2. rewrite repeat_length, Nat.div2_succ_double.
  replace (2 * c_in c)%nat with (c_in c + c_in c)%nat by lia.
  rewrite skipn_repeat_add. rewrite <- (mask_length c Hwf).
  apply zero_shift_row. exact (proj1 Hfin).
Qed.

Lemma row_fwd_zero (r : vec) :
  vfin r -> length r = c_in c -> row_fwd c r = r.
Proof.
  intros Hr Hl. unfold row_fwd.
  rewrite row_log_scale_zero, row_t_zero by assumption.
  rewrite <- Hl. now apply identity_row_fwd.
Qed.

Lemma row_rev_zero (r : vec) :
  vfin r -> length r = c_in c -> row_rev c r = r.
Proof.
  intros Hr Hl. unfold row_rev.
  rewrite row_log_scale_zero, row_t_zero by assumption.
  rewrite <- Hl. now apply identity_row_rev.
Qed.

(** A coupling layer whose last linear layer is zero is the identity on
    [z] and adds zero to [ldj], in both directions. *)
Lemma zero_last_coupling_identity (z : mat) (ldj : vec) (reverse : bool) :
  Forall (fun r => length r = c_in c) z -> tfin z -> length ldj = length z ->
  Coupling_forward c z ldj reverse = (z, ldj).
Proof.
  intros Hsh Hz Hl.
  assert (Hid : forall f : vec -> vec,
             (forall r, vfin r -> length r = c_in c -> f r = r) -> map f z = z).
  { intros f Hf. clear Hl. induction z as [| r z' IH]; simpl; [reflexivity |].
    inversion Hsh; subst. inversion Hz; subst.
    rewrite Hf, IH by assumption. reflexivity. }
  destruct reverse.
  - rewrite Coupling_forward_rev_rows. f_equal. apply Hid, row_rev_zero.
  - rewrite Coupling_forward_fwd_rows. f_equal.
    + apply Hid, row_fwd_zero.
    + assert (E : map (fun r => nsum (row_log_scale c r)) z = zeros (length z)).
      { clear Hl Hid Hsh. unfold zeros.
        induction Hz as [| r z' Hr Hz' IH]; simpl; [reflexivity |].
        rewrite IH, row_log_scale_zero, nsum_zeros by assumption. reflexivity. }
      rewrite E. now apply vadd_zeros_r.
Qed.

End ZeroLast.

(** ** Composition of layers *)

Lemma fold_identity_layers (D : nat) (ls : list Coupling) (z : mat) (ldj : vec)
      (reverse : bool) :
  Forall (id_layer D) ls ->
  Forall (fun r => length r = D) z -> tfin z -> length ldj = length z ->
  fold_left (fun st layer => Coupling_forward layer (fst st) (snd st) reverse)
            ls (z, ldj) = (z, ldj).
Proof.
  intros Hls Hsh Hz Hl.
  induction Hls as [| c ls (Hwf & Hfin & Hzero & Hc) Hls IH]; simpl; [reflexivity |].
  rewrite zero_last_coupling_identity; auto. now rewrite Hc.
Qed.

(** C3. A coupling layer whose final linear layer has all weights and biases
    zero (the state [Coupling.__init__] leaves) is the identity map on every
    real-valued input of its width and adds zero to [ldj], in both
    directions; and a flow of two such layers, one on a mask and one on its
    complement, returns its input with [ldj = 0] for every example (in
    particular on a batch of 4 examples of dimension 784). *)
Theorem zero_init_coupling_and_flow_identity
        (c1 c2 : Coupling) (B : nat) (z : mat) (ldj : vec) (reverse : bool) :
  wf_coupling c1 -> fin_coupling c1 -> zero_last c1 ->
  wf_coupling c2 -> fin_coupling c2 -> zero_last c2 ->
  mask c2 = one_minus (mask c1) -> c_in c2 = c_in c1 ->
  shape z B (c_in c1) -> tfin z -> length ldj = B ->
  Coupling_forward c1 z ldj reverse = (z, ldj) /\
  Flow_forward {| layers := [c1; c2]; z_shape := c_in c1 |} z (zeros B) reverse
  = (z, zeros B).
Proof.
  intros Hwf1 Hfin1 Hz1 Hwf2 Hfin2 Hz2 _ Hc [HB Hsh] Hz Hl. split.
  - apply zero_last_coupling_identity; auto. congruence.
  - assert (Hls : Forall (id_layer (c_in c1)) [c1; c2]).
    { assert (H1 : id_layer (c_in c1) c1) by (unfold id_layer; auto).
      assert (H2 : id_layer (c_in c1) c2) by (unfold id_layer; auto).
      auto. }
    assert (Hlz : length (zeros B) = length z).
    { unfold zeros. rewrite repeat_length. congruence. }
    unfold Flow_forward. cbn [layers]. destruct reverse; cbn [negb].
    + apply fold_identity_layers with (D := c_in c1); auto.
      now apply Forall_rev.
    + apply fold_identity_layers with (D := c_in c1); auto.
Qed.

(** ** Shape and finiteness through the flow *)

Lemma vrange_fin (P : R -> Prop) (v : vec) : vrange P v -> vfin v.
Proof.
  unfold vrange, vfin. apply Forall_impl. intros a (x & -> & _). exact I.
Qed.

Lemma trange_fin (P : R -> Prop) (m : mat) : trange P m -> tfin m.
Proof. unfold trange, tfin. apply Forall_impl. intros r. apply vrange_fin. Qed.

Lemma Forall_zip_with {A B C : Type} (P : A -> Prop) (Q : B -> Prop) (S : C -> Prop)
      (f : A -> B -> C) (a : list A) (b : list B) :
  (forall x y, P x -> Q y -> S (f x y)) ->
  Forall P a -> Forall Q b -> Forall S (zip_with f a b).
Proof.
  intros Hf Ha. revert b.
  induction Ha as [| x a Hx Ha IH]; intros [| y b] Hb; simpl; try constructor;
    inversion Hb; subst; auto.
Qed.

Lemma Forall_map_intro {A B : Type} (P : A -> Prop) (Q : B -> Prop) (f : A -> B)
      (l : list A) :
  (forall x, P x -> Q (f x)) -> Forall P l -> Forall Q (map f l).
Proof. intros Hf Hl. induction Hl; simpl; constructor; auto. Qed.

Section LayerInvariant.

Variable c : Coupling.
Hypothesis Hwf : wf_coupling c.
Hypothesis Hfin : fin_coupling c.

Lemma mask_is_fin : vfin (mask c).
Proof. exact (proj1 Hfin). Qed.

Lemma row_log_scale_fin (r : vec) : vfin r -> vfin (row_log_scale c r).
Proof.
  intros Hr. unfold row_log_scale.
  apply zip_with_fin; auto using nmul_fin, one_minus_fin, mask_is_fin.
  apply map_fin; auto using ntanh_fin, row_s_fin.
Qed.

Lemma row_t_fin (r : vec) : vfin r -> vfin (row_t c r).
Proof.
  intros Hr. unfold row_t.
  apply zip_with_fin; auto using nmul_fin, one_minus_fin, mask_is_fin, row_t_raw_fin.
Qed.

Lemma row_log_scale_length (r : vec) : length (row_log_scale c r) = c_in c.
Proof.
  unfold row_log_scale, vmul.
  rewrite zip_with_length, length_map, row_s_length, one_minus_length,
    (mask_length c Hwf) by assumption.
  apply Nat.min_id.
Qed.

Lemma row_t_length (r : vec) : length (row_t c r) = c_in c.
Proof.
  unfold row_t, vmul.
  rewrite zip_with_length, row_t_raw_length, one_minus_length,
    (mask_length c Hwf) by assumption.
  apply Nat.min_id.
Qed.

Lemma row_fwd_fin (r : vec) : vfin r -> vfin (row_fwd c r).
Proof.
  intros Hr. unfold row_fwd.
  apply zip_with_fin; auto using nmul_fin.
  - apply map_fin; auto using nexp_fin, row_log_scale_fin.
  - apply zip_with_fin; auto using nadd_fin, row_t_fin.
Qed.

Lemma row_rev_fin (r : vec) : vfin r -> vfin (row_rev c r).
Proof.
  intros Hr. unfold row_rev.
  apply zip_with_fin; auto using nsub_fin, row_t_fin.
  apply zip_with_fin; auto using nmul_fin.
  apply map_fin; auto using nexp_fin.
  apply map_fin; auto using row_log_scale_fin.
  intros x Hx. now apply nmul_fin.
Qed.

Lemma row_fwd_length (r : vec) : length r = c_in c -> length (row_fwd c r) = c_in c.
Proof.
  intros Hl. unfold row_fwd, vmul, vadd.
  rewrite !zip_with_length, length_map, row_log_scale_length, row_t_length, Hl.
  lia.
Qed.

Lemma row_rev_length (r : vec) : length r = c_in c -> length (row_rev c r) = c_in c.
Proof.
  intros Hl. unfold row_rev, vmul, vsub.
  rewrite !zip_with_length, !length_map, row_log_scale_length, row_t_length, Hl.
  lia.
Qed.

Lemma Coupling_forward_ok (B : nat) (st : mat * vec) (reverse : bool) :
  state_ok B (c_in c) st ->
  state_ok B (c_in c) (Coupling_forward c (fst st) (snd st) reverse).
Proof.
  destruct st as [z ldj]. intros ([HB Hsh] & Hz & Hl & Hldj). cbn [fst snd] in *.
  destruct reverse.
  - rewrite Coupling_forward_rev_rows. repeat split; cbn [fst snd]; auto.
    + now rewrite length_map.
    + eapply Forall_map_intro; [| exact (Forall_and Hsh Hz)].
      intros r [Hr1 Hr2]. now apply row_rev_length.
    + eapply Forall_map_intro; [| exact Hz]. apply row_rev_fin.
  - rewrite Coupling_forward_fwd_rows. repeat split; cbn [fst snd]; auto.
    + now rewrite length_map.
    + eapply Forall_map_intro; [| exact (Forall_and Hsh Hz)].
      intros r [Hr1 Hr2]. now apply row_fwd_length.
    + eapply Forall_map_intro; [| exact Hz]. apply row_fwd_fin.
    + unfold vadd. rewrite zip_with_length, length_map. lia.
    + apply zip_with_fin; auto using nadd_fin.
      eapply Forall_map_intro; [| exact Hz].
      intros r Hr. now apply nsum_fin, row_log_scale_fin.
Qed.

End LayerInvariant.



(** ** Logit normalization, elementwise *)

Lemma squash_range (x : R) : 0 <= x < 256 -> 0 < squash x < 1.
Proof. unfold squash, alpha. intros H. lra. Qed.

Lemma squash_elem (x : R) :
  nadd (nmul (ndiv (Fin x) (Fin 256)) (Fin (1 - alpha))) (Fin (alpha * (1 / 2)))
  = Fin (squash x).
Proof.
  unfold ndiv. rewrite sign_case_pos by lra. reflexivity.
Qed.

Lemma nlog_pos (p : R) : 0 < p -> nlog (Fin p) = Fin (ln p).
Proof. intros Hp. unfold nlog. now apply sign_case_pos. Qed.

Lemma logit_elem (p : R) :
  0 < p < 1 ->
  nsub (nlog (Fin p)) (nlog (nsub (Fin 1) (Fin p))) = Fin (logit p).
Proof.
  intros Hp. unfold nsub at 2. cbn [nneg nadd].
  rewrite !nlog_pos by lra. reflexivity.
Qed.

Lemma ldj_logit_elem (p : R) :
  0 < p < 1 ->
  nsub (nneg (nlog (Fin p))) (nlog (nsub (Fin 1) (Fin p)))
  = Fin (- ln p + - ln (1 + - p)).
Proof.
  intros Hp. unfold nsub at 2. cbn [nneg nadd].
  rewrite !nlog_pos by lra. reflexivity.
Qed.

Lemma ldj_sigmoid_elem (y : R) :
  0 < y < 1 ->
  nadd (nlog (Fin y)) (nlog (nsub (Fin 1) (Fin y))) = Fin (ln y + ln (1 + - y)).
Proof.
  intros Hy. unfold nsub. cbn [nneg nadd].
  rewrite !nlog_pos by lra. reflexivity.
Qed.

Lemma exp_logit (p : R) : 0 < p < 1 -> exp (logit p) = p / (1 - p).
Proof.
  intros Hp. unfold logit.
  rewrite exp_plus, exp_Ropp, !exp_ln by lra.
  unfold Rdiv, Rminus. reflexivity.
Qed.

Lemma sigmoid_logit (p : R) : 0 < p < 1 -> 1 / (1 + exp (- logit p)) = p.
Proof.
  intros Hp. rewrite exp_Ropp, exp_logit by assumption. field. lra.
Qed.


(** One entry through forward then reverse [logit_normalize]. *)
Lemma logit_roundtrip_elem (x : R) :
  0 <= x < 256 ->
  nmul (nsigmoid
          (nsub (nlog (Fin (squash x))) (nlog (nsub (Fin 1) (Fin (squash x))))))
       (Fin 256)
  = Fin (x * (1 - alpha) + 128 * alpha).
Proof.
  intros Hx. pose proof (squash_range x Hx) as Hp.
  rewrite logit_elem by assumption. cbn [nsigmoid nmul].
  rewrite sigmoid_logit by assumption. f_equal. unfold squash. field.
Qed.

(** ** Logit normalization on tensors *)

Lemma tmap_tmap (f g : num -> num) (z : mat) :
  tmap g (tmap f z) = tmap (fun a => g (f a)) z.
Proof.
  unfold tmap. rewrite map_map. apply map_ext. intros r. apply map_map.
Qed.

Lemma tmap_ext_range (P : R -> Prop) (f g : num -> num) (z : mat) :
  (forall x, P x -> f (Fin x) = g (Fin x)) ->
  trange P z -> tmap f z = tmap g z.
Proof.
  intros Hfg Hz. unfold tmap.
  induction Hz as [| r z Hr Hz IH]; simpl; [reflexivity |].
  rewrite IH. f_equal.
  induction Hr as [| a r (x & -> & Hx) Hr IHr]; simpl; [reflexivity |].
  now rewrite IHr, Hfg.
Qed.

Lemma tmap_range (P Q : R -> Prop) (f : num -> num) (z : mat) :
  (forall x, P x -> exists y, f (Fin x) = Fin y /\ Q y) ->
  trange P z -> trange Q (tmap f z).
Proof.
  intros Hf Hz. unfold tmap, trange.
  eapply Forall_map_intro; [| exact Hz]. intros r Hr.
  eapply Forall_map_intro; [| exact Hr]. intros a (x & -> & Hx). auto.
Qed.

Lemma tmap_shape (f : num -> num) (z : mat) (B D : nat) :
  shape z B D -> shape (tmap f z) B D.
Proof.
  intros [HB Hsh]. unfold tmap. split.
  - now rewrite length_map.
  - eapply Forall_map_intro; [| exact Hsh]. intros r Hr. now rewrite length_map.
Qed.

Lemma tsum_rows_fin (z : mat) : tfin z -> vfin (tsum_rows z).
Proof.
  intros Hz. unfold tsum_rows. eapply Forall_map_intro; [| exact Hz].
  apply nsum_fin.
Qed.

Lemma log256_term_fin (z : mat) : vfin (log256_term z).
Proof.
  unfold log256_term. apply Forall_forall. intros a Ha.
  apply in_map_iff in Ha. destruct Ha as (r & <- & _). exact I.
Qed.

Lemma logit_forward_z (z : mat) (ldj : vec) :
  trange (fun x => 0 <= x < 256) z ->
  fst (logit_normalize z ldj false) = tmap (fun a => match a with
                                                     | Fin x => Fin (logit (squash x))
                                                     | _ => NaN
                                                     end) z.
Proof.
  intros Hz. unfold logit_normalize. cbn [negb fst].
  rewrite !tmap_tmap.
  apply tmap_ext_range with (P := fun x => 0 <= x < 256); [| assumption].
  intros x Hx. rewrite squash_elem. apply logit_elem. now apply squash_range.
Qed.

Lemma logit_forward_ok (B D : nat) (z : mat) (ldj : vec) :
  shape z B D -> trange (fun x => 0 <= x < 256) z ->
  length ldj = B -> vfin ldj ->
  state_ok B D (logit_normalize z ldj false).
Proof.
  intros Hsh Hz Hl Hldj.
  assert (H2 : trange (fun p => 0 < p < 1)
                 (tmap (fun a => nadd (nmul a (Fin (1 - alpha))) (Fin (alpha * (1 / 2))))
                       (tmap (fun a => ndiv a (Fin 256)) z))).
  { rewrite tmap_tmap. eapply tmap_range; [| exact Hz].
    intros x Hx. exists (squash x). split; [apply squash_elem | now apply squash_range]. }
  unfold state_ok. rewrite logit_forward_z by assumption.
  unfold logit_normalize. cbn [negb fst snd].
  split; [| split; [| split]].
  - apply tmap_shape. exact Hsh.
  - apply trange_fin with (P := fun _ => True).
    eapply tmap_range; [| exact Hz]. intros x _. eauto.
  - unfold vadd, vsub, ldj_logit, log256_term, tsum_rows, tmap.
    rewrite !zip_with_length, !length_map. destruct Hsh as [HB _].
    unfold mat, vec in *. lia.
  - apply zip_with_fin; [apply nadd_fin | |].
    + apply zip_with_fin; [apply nsub_fin | assumption |].
      apply log256_term_fin.
    + unfold ldj_logit. apply tsum_rows_fin.
      apply trange_fin with (P := fun _ => True).
      eapply tmap_range; [| exact H2]. intros p Hp.
      rewrite ldj_logit_elem by assumption. eauto.
Qed.

(** ** The likelihood model *)




Lemma zeros_length (n : nat) : length (zeros n) = n.
Proof. apply repeat_length. Qed.





(** ** Forward then reverse logit normalization *)

(** The reverse direction undoes the logit and the division by 256 but not
    the rescaling by [alpha]: the round trip is the affine map
    [z * (1 - alpha) + 128 * alpha]. *)
Lemma logit_normalize_roundtrip_affine (z : mat) (ldj : vec) :
  trange (fun x => 0 <= x < 256) z ->
  fst (logit_normalize (fst (logit_normalize z ldj false))
                       (snd (logit_normalize z ldj false)) true)
  = tmap (fun a => nadd (nmul a (Fin (1 - alpha))) (Fin (128 * alpha))) z.
Proof.
  intros Hz. unfold logit_normalize. cbn [negb fst snd].
  rewrite !tmap_tmap.
  apply tmap_ext_range with (P := fun x => 0 <= x < 256); [| assumption].
  intros x Hx. rewrite squash_elem. now apply logit_roundtrip_elem.
Qed.

(** C1 (evaluated at a failing input). On the one-pixel batch [[1]] the
    forward direction followed by the reverse direction returns
    [[1.00127]], which is more than 1e-3 away from the input: the round trip
    does not reconstruct [z]. *)
Theorem logit_normalize_roundtrip_at_one :
  fst (logit_normalize (fst (logit_normalize [[Fin 1]] [Fin 0] false))
                       (snd (logit_normalize [[Fin 1]] [Fin 0] false)) true)
  = [[Fin (100127 / 100000)]] /\
  100127 / 100000 - 1 > 1 / 1000.
Proof.
  split; [| lra].
  rewrite logit_normalize_roundtrip_affine.
  - unfold tmap. cbn [map nmul nadd]. do 3 f_equal. unfold alpha. lra.
  - repeat constructor. exists 1. split; [reflexivity | lra].
Qed.

(** Numeric bounds used to place [logit (squash 160)] inside (0, 1). *)
Lemma exp_two_fifths_lt : exp (2 / 5) < 25 / 16.
Proof.
  assert (Ha : 1 + - (1 / 5) < exp (- (1 / 5))) by (apply exp_ineq1; lra).
  assert (E : exp (2 / 5) * (exp (- (1 / 5)) * exp (- (1 / 5))) = 1).
  { rewrite <- !exp_plus. replace (2 / 5 + (- (1 / 5) + - (1 / 5))) with 0 by lra.
    apply exp_0. }
  pose proof (exp_pos (2 / 5)) as Hp.
  nra.
Qed.

Lemma exp_three_fifths_gt : 169 / 100 < exp (3 / 5).
Proof.
  assert (Hb : 1 + 3 / 10 < exp (3 / 10)) by (apply exp_ineq1; lra).
  replace (3 / 5) with (3 / 10 + 3 / 10) by lra.
  rewrite exp_plus. nra.
Qed.

Lemma squash_160_bounds : 62499 / 100000 < squash 160 < 625 / 1000.
Proof. unfold squash, alpha. lra. Qed.

Lemma logit_squash_160_bounds : 2 / 5 < logit (squash 160) < 3 / 5.
Proof.
  pose proof squash_160_bounds as Hp.
  assert (He : exp (logit (squash 160)) = squash 160 / (1 - squash 160)).
  { apply exp_logit. lra. }
  assert (Hq : 25 / 16 < squash 160 / (1 - squash 160) < 169 / 100).
  { split.
    - apply Rmult_lt_reg_r with (1 - squash 160); [lra |].
      unfold Rdiv at 2. rewrite Rmult_assoc, Rinv_l by lra. lra.
    - apply Rmult_lt_reg_r with (1 - squash 160); [lra |].
      unfold Rdiv at 1. rewrite Rmult_assoc, Rinv_l by lra. lra. }
  pose proof exp_two_fifths_lt. pose proof exp_three_fifths_gt.
  split; apply exp_lt_inv; rewrite He; lra.
Qed.

Lemma logit_step_mismatch_160 :
  ln (squash 160) + ln (1 + - squash 160)
  < ln (logit (squash 160)) + ln (1 + - logit (squash 160)).
Proof.
  pose proof squash_160_bounds as Hp.
  pose proof logit_squash_160_bounds as Hy.
  rewrite <- !ln_mult by lra.
  apply ln_increasing; nra.
Qed.

(** The multiply-by-256 step adds back what the divide-by-256 step
    subtracted: the term depends on the shape only. *)
Lemma log256_term_shape (z z' : mat) :
  map (@length num) z = map (@length num) z' ->
  log256_term z = log256_term z'.
Proof.
  unfold log256_term.
  revert z'. induction z as [| r z IH]; intros [| r' z']; cbn [map]; intros H;
    try discriminate; [reflexivity |].
  injection H as Hr Hz. now rewrite (IH z' Hz), Hr.
Qed.

(** Evaluated on one and the same tensor with entries in (0, 1), the two
    logarithmic adjustments are each other's negation. *)
Lemma ldj_sigmoid_negates_logit_same_tensor (z : mat) :
  trange (fun p => 0 < p < 1) z ->
  ldj_sigmoid z = map nneg (ldj_logit z).
Proof.
  intros Hz. unfold ldj_sigmoid, ldj_logit, tsum_rows, tmap. rewrite !map_map.
  induction Hz as [| r z Hr Hz IH]; cbn [map]; [reflexivity |].
  rewrite IH. f_equal. clear IH Hz.
  assert (E : exists x,
             nsum (map (fun a => nadd (nlog a) (nlog (nsub (Fin 1) a))) r) = Fin (- x) /\
             nsum (map (fun a => nsub (nneg (nlog a)) (nlog (nsub (Fin 1) a))) r) = Fin x).
  { unfold nsum. induction Hr as [| a r (p & -> & Hp) Hr IHr]; cbn [map fold_right].
    - exists 0. split; [f_equal; ring | reflexivity].
    - destruct IHr as (x & E1 & E2). rewrite E1, E2.
      rewrite ldj_sigmoid_elem, ldj_logit_elem by assumption.
      exists (- ln p + - ln (1 + - p) + x). cbn [nadd]. split; [f_equal; ring | reflexivity]. }
  destruct E as (x & -> & ->). reflexivity.
Qed.

(** C6 (evaluated at a failing input). On the one-pixel batch [[160]] both
    directions are defined: the forward output [y] lies in (0, 1).  The
    forward logit step adds [af] to [ldj]; the reverse sigmoid step, which
    takes its logarithms before applying the sigmoid, adds [ar], and [ar] is
    not [- af].  Starting from [ldj = 0], forward followed by reverse leaves
    a strictly positive [ldj] instead of 0. *)
Theorem logit_normalize_reverse_ldj_mismatch :
  let fw := logit_normalize [[Fin 160]] [Fin 0] false in
  let bw := logit_normalize (fst fw) (snd fw) true in
  exists y af ar v : R,
    fst fw = [[Fin y]] /\ 0 < y < 1 /\
    ldj_logit [[Fin (squash 160)]] = [Fin af] /\
    ldj_sigmoid (fst fw) = [Fin ar] /\
    ar <> - af /\
    snd bw = [Fin v] /\ 0 < v.
Proof.
  pose proof squash_160_bounds as Hp.
  pose proof logit_squash_160_bounds as Hy.
  pose proof logit_step_mismatch_160 as Hlt.
  assert (Hfz : fst (logit_normalize [[Fin 160]] [Fin 0] false)
                = [[Fin (logit (squash 160))]]).
  { unfold logit_normalize, tmap. cbn [negb fst map].
    rewrite squash_elem, logit_elem by lra. reflexivity. }
  assert (Hfl : snd (logit_normalize [[Fin 160]] [Fin 0] false)
                = [Fin (0 + - (ln 256 * 1)
                        + (- ln (squash 160) + - ln (1 + - squash 160) + 0))]).
  { unfold logit_normalize, ldj_logit, log256_term, tsum_rows, tmap,
      vadd, vsub, nsum.
    cbn [negb snd map length zip_with fold_right INR].
    rewrite squash_elem, ldj_logit_elem by lra. reflexivity. }
  assert (Hlg : ldj_logit [[Fin (squash 160)]]
                = [Fin (- ln (squash 160) + - ln (1 + - squash 160) + 0)]).
  { unfold ldj_logit, tsum_rows, tmap, nsum. cbn [map fold_right].
    rewrite ldj_logit_elem by lra. reflexivity. }
  assert (Hsg : ldj_sigmoid [[Fin (logit (squash 160))]]
                = [Fin (ln (logit (squash 160)) + ln (1 + - logit (squash 160)) + 0)]).
  { unfold ldj_sigmoid, tsum_rows, tmap, nsum. cbn [map fold_right].
    rewrite ldj_sigmoid_elem by lra. reflexivity. }
  cbv zeta. rewrite Hfz, Hfl.
  eexists _, _, _, _.
  split; [reflexivity |]. split; [lra |].
  split; [exact Hlg |]. split; [exact Hsg |]. split; [lra |].
  split.
  - unfold logit_normalize. cbn [negb snd]. rewrite Hsg.
    unfold log256_term, tmap, vadd.
    cbn [map length zip_with nadd INR]. reflexivity.
  - lra.
Qed.

(** ** Shapes and values of constant tensors *)

Lemma shape_repeat (r : vec) (B : nat) : shape (repeat r B) B (length r).
Proof.
  split; [apply repeat_length |].
  apply Forall_forall. intros x Hx. apply repeat_spec in Hx. now subst.
Qed.

Lemma vrange_repeat (P : R -> Prop) (x : R) (n : nat) :
  P x -> vrange P (repeat (Fin x) n).
Proof.
  intros Hx. apply Forall_forall. intros a Ha. apply repeat_spec in Ha.
  subst. now exists x.
Qed.

Lemma trange_repeat (P : R -> Prop) (x : R) (n B : nat) :
  P x -> trange P (repeat (repeat (Fin x) n) B).
Proof.
  intros Hx. apply Forall_forall. intros r Hr. apply repeat_spec in Hr.
  subst. now apply vrange_repeat.
Qed.

Lemma tfin_repeat (x : R) (n B : nat) : tfin (repeat (repeat (Fin x) n) B).
Proof. apply trange_fin with (P := fun _ => True). now apply trange_repeat. Qed.

Lemma vadd_repeat (a b : num) (n : nat) :
  vadd (repeat a n) (repeat b n) = repeat (nadd a b) n.
Proof.
  unfold vadd. induction n as [| n IH]; simpl; [reflexivity | now rewrite IH].
Qed.

Lemma const_linear_wf (n_out n_in : nat) (w b : R) :
  wf_linear n_out n_in (const_linear n_out n_in w b).
Proof.
  unfold wf_linear, const_linear. cbn [weight bias]. split.
  - pose proof (shape_repeat (repeat (Fin w) n_in) n_out) as H.
    now rewrite repeat_length in H.
  - apply repeat_length.
Qed.

Lemma const_linear_fin (n_out n_in : nat) (w b : R) :
  fin_linear (const_linear n_out n_in w b).
Proof.
  unfold fin_linear, const_linear. cbn [weight bias]. split.
  - apply tfin_repeat.
  - apply vrange_fin with (P := fun _ => True). now apply vrange_repeat.
Qed.

Lemma zero_linear_wf (n_out n_in : nat) : wf_linear n_out n_in (zero_linear n_out n_in).
Proof. apply (const_linear_wf n_out n_in 0 0). Qed.

Lemma zero_linear_fin (n_out n_in : nat) : fin_linear (zero_linear n_out n_in).
Proof. apply (const_linear_fin n_out n_in 0 0). Qed.

(** ** The checkerboard mask *)

Lemma get_mask_length : length get_mask = 784%nat.
Proof. reflexivity. Qed.

Lemma get_mask_binary : binary get_mask.
Proof.
  unfold binary, get_mask. apply Forall_forall. intros a Ha.
  apply in_flat_map in Ha. destruct Ha as (i & _ & Ha).
  apply in_map_iff in Ha. destruct Ha as (j & <- & _).
  destruct (Nat.eqb ((i + j) mod 2) 0); [right | left]; reflexivity.
Qed.

Lemma binary_fin (m : vec) : binary m -> vfin m.
Proof.
  unfold binary, vfin. apply Forall_impl. intros a [-> | ->]; exact I.
Qed.

Lemma get_mask_fin : vfin get_mask.
Proof. apply binary_fin, get_mask_binary. Qed.

(** ** What the constructors build *)

Lemma Coupling_init_layer (c n : nat) (m : vec) (l0 l2 : Linear) :
  length m = c -> vfin m ->
  wf_linear n c l0 -> fin_linear l0 ->
  wf_linear n n l2 -> fin_linear l2 ->
  id_layer c (Coupling_init c n m l0 l2).
Proof.
  intros Hm Hfm Hw0 Hf0 Hw2 Hf2. unfold id_layer, Coupling_init.
  split; [| split; [| split]].
  - unfold wf_coupling. cbn [c_in n_hidden mask nn_0 nn_2 nn_4].
    auto using zero_linear_wf.
  - unfold fin_coupling. cbn [mask nn_0 nn_2 nn_4].
    auto using zero_linear_fin.
  - reflexivity.
  - reflexivity.
Qed.


Lemma Flow_init_layers (n_flows : nat)
      (inits : nat -> (Linear * Linear) * (Linear * Linear)) :
  (forall i,
      wf_linear 1024 784 (fst (fst (inits i))) /\ fin_linear (fst (fst (inits i))) /\
      wf_linear 1024 1024 (snd (fst (inits i))) /\ fin_linear (snd (fst (inits i))) /\
      wf_linear 1024 784 (fst (snd (inits i))) /\ fin_linear (fst (snd (inits i))) /\
      wf_linear 1024 1024 (snd (snd (inits i))) /\ fin_linear (snd (snd (inits i)))) ->
  Forall (id_layer 784) (layers (Flow_init 784 n_flows inits)).
Proof.
  intros Hi. unfold Flow_init. cbn [layers].
  apply Forall_flat_map. apply Forall_forall. intros i _.
  destruct (Hi i) as (A1 & A2 & A3 & A4 & A5 & A6 & A7 & A8).
  constructor; [| constructor; [| constructor]].
  - apply Coupling_init_layer; auto using get_mask_length, get_mask_fin.
  - apply Coupling_init_layer; auto using one_minus_fin, get_mask_fin.
Qed.

Lemma const_inits_ok (i : nat) :
  wf_linear 1024 784 (fst (fst (const_inits i))) /\
  fin_linear (fst (fst (const_inits i))) /\
  wf_linear 1024 1024 (snd (fst (const_inits i))) /\
  fin_linear (snd (fst (const_inits i))) /\
  wf_linear 1024 784 (fst (snd (const_inits i))) /\
  fin_linear (fst (snd (const_inits i))) /\
  wf_linear 1024 1024 (snd (snd (const_inits i))) /\
  fin_linear (snd (snd (const_inits i))).
Proof.
  unfold const_inits. cbn [fst snd].
  repeat split; try apply const_linear_wf; apply const_linear_fin.
Qed.


Lemma init_layer_a_ok : id_layer 784 init_layer_a.
Proof.
  apply Coupling_init_layer;
    auto using get_mask_length, get_mask_fin, const_linear_wf, const_linear_fin.
Qed.

Lemma init_layer_b_ok : id_layer 784 init_layer_b.
Proof.
  apply Coupling_init_layer;
    auto using one_minus_fin, get_mask_fin, const_linear_wf, const_linear_fin.
Qed.

Lemma small_coupling_wf : wf_coupling small_coupling.
Proof.
  unfold wf_coupling, wf_linear, shape, small_coupling.
  cbn [c_in n_hidden mask nn_0 nn_2 nn_4 weight bias length Nat.mul Nat.add].
  repeat split; repeat constructor.
Qed.

Lemma small_coupling_fin : fin_coupling small_coupling.
Proof.
  unfold fin_coupling, fin_linear, tfin, vfin, small_coupling.
  cbn [mask nn_0 nn_2 nn_4 weight bias].
  repeat split; repeat constructor.
Qed.

Lemma small_coupling_binary : binary (mask small_coupling).
Proof.
  unfold binary, small_coupling. cbn [mask].
  constructor; [now right | constructor; [now left | constructor]].
Qed.

Lemma small_batch_shape : Forall (fun r => length r = c_in small_coupling) small_batch.
Proof. repeat constructor. Qed.

Lemma small_batch_fin : tfin small_batch.
Proof. unfold tfin, vfin, small_batch. repeat constructor. Qed.

(** ** Instances of the coupling and model theorems *)

Lemma coupling_forward_then_reverse_witness :
  fst (Coupling_forward small_coupling
         (fst (Coupling_forward small_coupling small_batch [Fin 0] false))
         (snd (Coupling_forward small_coupling small_batch [Fin 0] false)) true)
  = small_batch.
Proof.
  apply coupling_forward_then_reverse.
  - exact small_coupling_wf.
  - exact small_coupling_fin.
  - exact small_coupling_binary.
  - exact small_batch_shape.
  - exact small_batch_fin.
Defined.

Lemma coupling_masked_coordinates_fixed_witness :
  entry (fst (Coupling_forward small_coupling small_batch [Fin 0] false)) 0 0
  = Some (Fin 2) /\
  entry (fst (Coupling_forward small_coupling small_batch [Fin 0] true)) 0 0
  = Some (Fin 2).
Proof.
  split.
  - exact (coupling_masked_coordinates_fixed
             small_coupling small_batch [Fin 0] false 0 0
             small_coupling_wf small_coupling_fin
             small_batch_shape small_batch_fin eq_refl).
  - exact (coupling_masked_coordinates_fixed
             small_coupling small_batch [Fin 0] true 0 0
             small_coupling_wf small_coupling_fin
             small_batch_shape small_batch_fin eq_refl).
Defined.

Lemma zero_init_coupling_and_flow_identity_witness :
  Coupling_forward init_layer_a (const_batch 4 2) (zeros 4) false
  = (const_batch 4 2, zeros 4) /\
  Flow_forward {| layers := [init_layer_a; init_layer_b]; z_shape := 784 |}
               (const_batch 4 2) (zeros 4) false
  = (const_batch 4 2, zeros 4).
Proof.
  destruct init_layer_a_ok as (Hwa & Hfa & Hza & _).
  destruct init_layer_b_ok as (Hwb & Hfb & Hzb & _).
  apply (zero_init_coupling_and_flow_identity
           init_layer_a init_layer_b 4 (const_batch 4 2) (zeros 4) false
           Hwa Hfa Hza Hwb Hfb Hzb eq_refl eq_refl).
  - exact (shape_repeat (repeat (Fin 2) 784) 4).
  - apply tfin_repeat.
  - reflexivity.
Defined.



(** ** a3_vae_template.py *)

Import VAE.

(** The std head is never negative on real-valued parameters and inputs:
    ReLU bounds it below by zero, and no more. *)
Lemma encoder_std_nonneg (e : Encoder) (input : mat) :
  fin_linear (linear1 e) -> fin_linear (linear_std e) -> tfin input ->
  trange (fun x => 0 <= x) (snd (Encoder_forward e input)).
Proof.
  intros H1 Hs Hi. unfold Encoder_forward. cbn [snd].
  unfold ReLU, Linear_forward, tmap. rewrite !map_map.
  unfold trange. eapply Forall_map_intro; [| exact Hi]. intros r Hr.
  assert (Hpre : vfin (linear_row (linear_std e)
                                  (map nrelu (linear_row (linear1 e) r)))).
  { apply linear_row_fin; [assumption |].
    apply map_fin; [apply nrelu_fin | now apply linear_row_fin]. }
  unfold linear_row in Hpre. unfold vrange.
  eapply Forall_map_intro; [| exact Hpre]. intros a Ha.
  destruct (is_fin_inv a Ha) as [x ->]. cbn [nrelu].
  eexists. split; [reflexivity | apply Rmax_l].
Qed.

(** C9 (evaluated at a failing input). On the default architecture with a
    zero first layer and a std head of zero weights and bias -1, the std
    returned for a blank image is exactly 0 in all 20 coordinates: it is not
    strictly positive. *)
Theorem encoder_std_can_be_zero :
  wf_encoder 500 20 dead_std_encoder /\
  snd (Encoder_forward dead_std_encoder blank_image) = [zeros 20].
Proof.
  split.
  - unfold wf_encoder, dead_std_encoder. cbn [linear1 linear_mu linear_std].
    split; [apply zero_linear_wf | split; [apply zero_linear_wf |]].
    apply (const_linear_wf 20 500 0 (-1)).
  - change (snd (Encoder_forward dead_std_encoder blank_image))
      with [map nrelu
              (linear_row (linear_std dead_std_encoder)
                 (map nrelu (linear_row (zero_linear 500 (28 * 28))
                                        (zeros (28 * 28)))))].
    rewrite linear_row_zero by apply zeros_fin.
    assert (Hh : map nrelu (zeros 500) = zeros 500).
    { unfold zeros. rewrite map_repeat. cbn [nrelu].
      now rewrite Rmax_left by lra. }
    rewrite Hh. unfold linear_row, dead_std_encoder. cbn [linear_std weight bias].
    rewrite map_repeat, dot_zeros by apply zeros_fin.
    rewrite vadd_repeat, map_repeat. cbn [nadd nrelu].
    rewrite Rmax_left by lra. reflexivity.
Qed.

(** C10. [VAE.sample] and the VAE file's [epoch_iter] raise
    [NotImplementedError] on every invocation, whatever the arguments and
    the program state, return no result and leave the state as it was. *)
Theorem vae_stubs_raise_not_implemented :
  (forall (S : Type) (s : S) (n_samples : nat),
      VAE_sample n_samples s = (Raised NotImplementedError, s)) /\
  (forall (S Mod Data Opt : Type) (s : S)
          (model : Mod) (data : Data) (optimizer : Opt),
      epoch_iter model data optimizer s = (Raised NotImplementedError, s)).
Proof.
  split; intros; reflexivity.
Qed.

(** * Further properties of the flow *)

(** ** The coupling layer is a bijection *)

Lemma coupling_elem_roundtrip_rev (z s t m : R) :
  m = 0 \/ m = 1 ->
  let ls := tanh s * (1 + - m) in
  let tt := t * (1 + - m) in
  exp ls * (exp (ls * -1) * z + - tt + tt) = z /\
  (exp (ls * -1) * z + - tt) * m = z * m.
Proof.
  intros Hm ls tt. split.
  - replace (exp (ls * -1) * z + - tt + tt) with (exp (ls * -1) * z) by ring.
    rewrite <- Rmult_assoc, (Rmult_comm (exp ls)), exp_cancel. ring.
  - subst ls tt. destruct Hm as [Hm | Hm].
    + rewrite Hm. ring.
    + assert (E : tanh s * (1 + - m) * -1 = 0) by (rewrite Hm; ring).
      rewrite E, exp_0, Hm. ring.
Qed.

(** Reverse then forward on one example, with the network outputs held
    fixed. *)
Lemma row_roundtrip_rev_gen (z : vec) :
  forall s t m : vec,
    length s = length z -> length t = length z -> length m = length z ->
    vfin z -> vfin s -> vfin t -> binary m ->
    let ls := vmul (map ntanh s) (one_minus m) in
    let tt := vmul t (one_minus m) in
    let z' := vsub (vmul (map nexp (map (fun a => nmul a (Fin (-1))) ls)) z) tt in
    vmul z' m = vmul z m /\
    vmul (map nexp ls) (vadd z' tt) = z.
Proof.
  unfold vmul, vadd, vsub, one_minus, binary, vfin. rows4 z s t m.
  - split; reflexivity.
  - fin_inv.
    destruct (IHz s t m) as [IH1 IH2]; try lia; try assumption.
    match goal with H : _ \/ _ |- _ => rename H into Hm end.
    assert (Hm' : exists mr, m0 = Fin mr /\ (mr = 0 \/ mr = 1)).
    { destruct Hm as [-> | ->]; eexists; split; eauto. }
    destruct Hm' as (mr & -> & Hmr).
    destruct (coupling_elem_roundtrip_rev r r0 r1 mr Hmr) as [E1 E2].
    simpl. split.
    + f_equal; [f_equal; exact E2 | exact IH1].
    + f_equal; [f_equal; exact E1 | exact IH2].
Qed.

Section CouplingBijection.

Variable c : Coupling.
Hypothesis Hwf : wf_coupling c.
Hypothesis Hfin : fin_coupling c.
Hypothesis Hbin : binary (mask c).

Lemma row_rev_keeps_masked (r : vec) :
  vfin r -> length r = c_in c ->
  vmul (row_rev c r) (mask c) = vmul r (mask c).
Proof.
  intros Hr Hl. unfold row_rev, row_log_scale, row_t.
  apply (row_roundtrip_rev_gen r (row_s c r) (row_t_raw c r) (mask c));
    rewrite ?row_s_length, ?row_t_raw_length, ?(mask_length c Hwf);
    auto using row_s_fin, row_t_raw_fin.
Qed.

Lemma row_fwd_rev (r : vec) :
  vfin r -> length r = c_in c -> row_fwd c (row_rev c r) = r.
Proof.
  intros Hr Hl.
  assert (Hs : row_s c (row_rev c r) = row_s c r).
  { unfold row_s. now rewrite row_rev_keeps_masked. }
  assert (Ht : row_t_raw c (row_rev c r) = row_t_raw c r).
  { unfold row_t_raw. now rewrite row_rev_keeps_masked. }
  unfold row_fwd, row_log_scale, row_t. rewrite Hs, Ht.
  unfold row_rev, row_log_scale, row_t.
  apply (row_roundtrip_rev_gen r (row_s c r) (row_t_raw c r) (mask c));
    rewrite ?row_s_length, ?row_t_raw_length, ?(mask_length c Hwf);
    auto using row_s_fin, row_t_raw_fin.
Qed.

Lemma map_row_rev_fwd (z : mat) :
  Forall (fun r => length r = c_in c) z -> tfin z ->
  map (row_rev c) (map (row_fwd c) z) = z.
Proof.
  intros Hsh Hz. rewrite map_map.
  induction z as [| r z IH]; simpl; [reflexivity |].
  inversion Hsh; subst. inversion Hz; subst.
  rewrite (row_rev_fwd c Hwf Hfin) by assumption. f_equal. now apply IH.
Qed.

Lemma map_row_fwd_rev (z : mat) :
  Forall (fun r => length r = c_in c) z -> tfin z ->
  map (row_fwd c) (map (row_rev c) z) = z.
Proof.
  intros Hsh Hz. rewrite map_map.
  induction z as [| r z IH]; simpl; [reflexivity |].
  inversion Hsh; subst. inversion Hz; subst.
  rewrite row_fwd_rev by assumption. f_equal. now apply IH.
Qed.

End CouplingBijection.

(** X1. The reverse direction followed by the forward direction also
    returns the original batch: with C2's order this makes the coupling
    layer a bijection on real-valued batches of its width. *)
Theorem coupling_reverse_then_forward (c : Coupling) (z : mat) (ldj : vec) :
  wf_coupling c -> fin_coupling c -> binary (mask c) ->
  Forall (fun r => length r = c_in c) z -> tfin z ->
  fst (Coupling_forward c (fst (Coupling_forward c z ldj true))
                        (snd (Coupling_forward c z ldj true)) false) = z.
Proof.
  intros Hwf Hfin Hb Hsh Hz.
  rewrite Coupling_forward_rev_rows. cbn [fst snd].
  rewrite Coupling_forward_fwd_rows. cbn [fst].
  now apply map_row_fwd_rev.
Qed.

Lemma coupling_reverse_then_forward_witness :
  fst (Coupling_forward small_coupling
         (fst (Coupling_forward small_coupling small_batch [Fin 0] true))
         (snd (Coupling_forward small_coupling small_batch [Fin 0] true)) false)
  = small_batch.
Proof.
  apply coupling_reverse_then_forward.
  - exact small_coupling_wf.
  - exact small_coupling_fin.
  - exact small_coupling_binary.
  - exact small_batch_shape.
  - exact small_batch_fin.
Defined.

(** ** The flow as a composition *)

(** The [z] component of each direction of the flow, layer by layer. *)
Lemma fold_forward_z (ls : list Coupling) (z : mat) (ldj : vec) :
  fst (fold_left (fun st layer => Coupling_forward layer (fst st) (snd st) false)
                 ls (z, ldj))
  = fold_left (fun x layer => map (row_fwd layer) x) ls z.
Proof.
  revert z ldj. induction ls as [| c ls IH]; intros z ldj; simpl; [reflexivity |].
  rewrite Coupling_forward_fwd_rows. apply IH.
Qed.

Lemma fold_reverse_state (ls : list Coupling) (z : mat) (ldj : vec) :
  fold_left (fun st layer => Coupling_forward layer (fst st) (snd st) true)
            ls (z, ldj)
  = (fold_left (fun x layer => map (row_rev layer) x) ls z, ldj).
Proof.
  revert z. induction ls as [| c ls IH]; intros z; simpl; [reflexivity |].
  rewrite Coupling_forward_rev_rows. apply IH.
Qed.

(** X2. The reverse pass of the flow hands back the accumulator it was
    given, whatever the layers, the input and the accumulator. *)
Theorem flow_reverse_keeps_logdet (f : Flow) (z : mat) (logdet : vec) :
  snd (Flow_forward f z logdet true) = logdet.
Proof.
  unfold Flow_forward. cbn [negb]. now rewrite fold_reverse_state.
Qed.

(** Layers of width [D] with real-valued parameters and a binary mask. *)
Lemma rows_ok_map_fwd (c : Coupling) (D : nat) (z : mat) :
  flow_layer D c ->
  Forall (fun r => length r = D) z -> tfin z ->
  Forall (fun r => length r = D) (map (row_fwd c) z) /\ tfin (map (row_fwd c) z).
Proof.
  intros (Hwf & Hfin & <-) Hsh Hz. split.
  - eapply Forall_map_intro; [| exact (Forall_and Hsh Hz)].
    intros r [Hr1 Hr2]. now apply row_fwd_length.
  - eapply Forall_map_intro; [| exact Hz]. now apply row_fwd_fin.
Qed.

Lemma rows_ok_map_rev (c : Coupling) (D : nat) (z : mat) :
  flow_layer D c ->
  Forall (fun r => length r = D) z -> tfin z ->
  Forall (fun r => length r = D) (map (row_rev c) z) /\ tfin (map (row_rev c) z).
Proof.
  intros (Hwf & Hfin & <-) Hsh Hz. split.
  - eapply Forall_map_intro; [| exact (Forall_and Hsh Hz)].
    intros r [Hr1 Hr2]. now apply row_rev_length.
  - eapply Forall_map_intro; [| exact Hz]. now apply row_rev_fin.
Qed.

Lemma fold_fwd_then_rev (D : nat) (ls : list Coupling) :
  Forall (fun c => flow_layer D c /\ binary (mask c)) ls ->
  forall z, Forall (fun r => length r = D) z -> tfin z ->
  fold_left (fun x layer => map (row_rev layer) x) (rev ls)
            (fold_left (fun x layer => map (row_fwd layer) x) ls z) = z.
Proof.
  intros Hls. induction Hls as [| c ls [Hc Hb] Hls IH]; intros z Hsh Hz;
    simpl; [reflexivity |].
  rewrite fold_left_app. simpl.
  destruct (rows_ok_map_fwd c D z Hc Hsh Hz) as [Hsh' Hz'].
  rewrite IH by assumption.
  destruct Hc as (Hwf & Hfin & <-). now apply map_row_rev_fwd.
Qed.

Lemma fold_rev_then_fwd (D : nat) (ls : list Coupling) :
  Forall (fun c => flow_layer D c /\ binary (mask c)) ls ->
  forall z, Forall (fun r => length r = D) z -> tfin z ->
  fold_left (fun x layer => map (row_fwd layer) x) ls
            (fold_left (fun x layer => map (row_rev layer) x) (rev ls) z) = z.
Proof.
  intros Hls. induction Hls as [| c ls [Hc Hb] Hls IH]; intros z Hsh Hz;
    simpl; [reflexivity |].
  rewrite fold_left_app. simpl.
  assert (Hmid : Forall (fun r => length r = D)
                        (fold_left (fun x layer => map (row_rev layer) x) (rev ls) z)
                 /\ tfin (fold_left (fun x layer => map (row_rev layer) x) (rev ls) z)).
  { assert (Hrev : Forall (fun c => flow_layer D c) (rev ls)).
    { apply Forall_rev. eapply Forall_impl; [| exact Hls]. intros a Ha. exact (proj1 Ha). }
    clear IH Hls. revert z Hsh Hz.
    induction Hrev as [| a l Ha Hl IHl]; intros z Hsh Hz; simpl; [now split |].
    destruct (rows_ok_map_rev a D z Ha Hsh Hz) as [H1 H2]. now apply IHl. }
  destruct Hmid as [Hsh' Hz'].
  destruct Hc as (Hwf & Hfin & <-).
  rewrite map_row_fwd_rev by assumption. now apply IH.
Qed.

(** X3. Running the flow forward and then in reverse on the result returns
    the original batch, for any number of layers of one width with binary
    masks and real-valued parameters (the accumulator handed to the reverse
    pass is irrelevant). *)
Theorem flow_forward_then_reverse
        (f : Flow) (D : nat) (z : mat) (logdet logdet' : vec) :
  Forall (fun c => flow_layer D c /\ binary (mask c)) (layers f) ->
  Forall (fun r => length r = D) z -> tfin z ->
  fst (Flow_forward f (fst (Flow_forward f z logdet false)) logdet' true) = z.
Proof.
  intros Hls Hsh Hz. unfold Flow_forward. cbn [negb].
  rewrite fold_reverse_state, fold_forward_z. cbn [fst].
  now apply fold_fwd_then_rev with (D := D).
Qed.

(** X4. Running the flow in reverse and then forward on the result returns
    the original batch as well: the flow is a bijection on real-valued
    batches of its width. *)
Theorem flow_reverse_then_forward
        (f : Flow) (D : nat) (z : mat) (logdet logdet' : vec) :
  Forall (fun c => flow_layer D c /\ binary (mask c)) (layers f) ->
  Forall (fun r => length r = D) z -> tfin z ->
  fst (Flow_forward f (fst (Flow_forward f z logdet true)) logdet' false) = z.
Proof.
  intros Hls Hsh Hz. unfold Flow_forward. cbn [negb].
  rewrite fold_reverse_state, fold_forward_z. cbn [fst].
  now apply fold_rev_then_fwd with (D := D).
Qed.

Lemma small_coupling_swapped_layer :
  flow_layer 2 small_coupling_swapped /\ binary (mask small_coupling_swapped).
Proof.
  unfold flow_layer, wf_coupling, fin_coupling, wf_linear, fin_linear, shape,
    tfin, vfin, binary, small_coupling_swapped.
  cbn [c_in n_hidden mask nn_0 nn_2 nn_4 weight bias length Nat.mul Nat.add].
  repeat split;
    repeat (constructor; try exact I; try (now left); try (now right)).
Qed.

Lemma small_coupling_layer :
  flow_layer 2 small_coupling /\ binary (mask small_coupling).
Proof.
  split; [| exact small_coupling_binary].
  unfold flow_layer. auto using small_coupling_wf, small_coupling_fin.
Qed.

Lemma small_flow_layers :
  Forall (fun c => flow_layer 2 c /\ binary (mask c)) (layers small_flow).
Proof.
  unfold small_flow. cbn [layers].
  auto using small_coupling_layer, small_coupling_swapped_layer.
Qed.

Lemma flow_forward_then_reverse_witness :
  fst (Flow_forward small_flow
         (fst (Flow_forward small_flow small_batch [Fin 0] false)) [Fin 0] true)
  = small_batch.
Proof.
  apply (flow_forward_then_reverse small_flow 2 small_batch [Fin 0] [Fin 0]).
  - exact small_flow_layers.
  - exact small_batch_shape.
  - exact small_batch_fin.
Defined.

Lemma flow_reverse_then_forward_witness :
  fst (Flow_forward small_flow
         (fst (Flow_forward small_flow small_batch [Fin 0] true)) [Fin 0] false)
  = small_batch.
Proof.
  apply (flow_reverse_then_forward small_flow 2 small_batch [Fin 0] [Fin 0]).
  - exact small_flow_layers.
  - exact small_batch_shape.
  - exact small_batch_fin.
Defined.

(** ** The scale is bounded *)

Lemma tanh_bounds (x : R) : -1 < tanh x < 1.
Proof.
  unfold tanh, sinh, cosh.
  pose proof (exp_pos x) as Ha. pose proof (exp_pos (- x)) as Hb.
  assert (Hq : 0 < (exp x + exp (- x)) / 2) by lra.
  split.
  - apply Rmult_lt_reg_r with ((exp x + exp (- x)) / 2); [assumption |].
    unfold Rdiv at 2. rewrite Rmult_assoc, Rinv_l by lra. lra.
  - apply Rmult_lt_reg_r with ((exp x + exp (- x)) / 2); [assumption |].
    unfold Rdiv at 1. rewrite Rmult_assoc, Rinv_l by lra. lra.
Qed.

Lemma log_scale_entries_bounded (s m : vec) :
  vfin s -> binary m ->
  vrange (fun x => -1 < x < 1) (vmul (map ntanh s) (one_minus m)).
Proof.
  intros Hs Hm. unfold vmul, vrange.
  apply Forall_zip_with with
    (P := fun a => exists x, a = Fin x /\ -1 < x < 1)
    (Q := fun b => exists y, b = Fin y /\ 0 <= y <= 1).
  - intros a b (x & -> & Hx) (y & -> & Hy). exists (x * y). split; [reflexivity | nra].
  - eapply Forall_map_intro; [| exact Hs]. intros a Ha.
    destruct (is_fin_inv a Ha) as [x ->]. exists (tanh x). split; [reflexivity |].
    apply tanh_bounds.
  - unfold one_minus. eapply Forall_map_intro; [| exact Hm].
    intros a [-> | ->]; eexists; (split; [reflexivity | lra]).
Qed.

Lemma nsum_bounded (v : vec) :
  vrange (fun x => -1 < x < 1) v ->
  exists s, nsum v = Fin s /\ - INR (length v) <= s <= INR (length v).
Proof.
  unfold nsum. intros Hv.
  induction Hv as [| a v (x & -> & Hx) Hv (s & Hs & Hb)].
  - exists 0. simpl. split; [reflexivity | lra].
  - exists (x + s). cbn [fold_right length]. rewrite Hs, S_INR.
    split; [reflexivity | lra].
Qed.

Lemma coupling_ldj_step
        (c : Coupling) (z : mat) (ldj : vec) :
  wf_coupling c -> fin_coupling c -> binary (mask c) ->
  tfin z -> vfin ldj -> length ldj = length z ->
  Forall2 (fun a b => exists x y, a = Fin x /\ b = Fin y /\
                                  Rabs (y - x) <= INR (c_in c))
          ldj (snd (Coupling_forward c z ldj false)).
Proof.
  intros Hwf Hfin Hb Hz Hl Hlen.
  rewrite Coupling_forward_fwd_rows. cbn [snd]. unfold vadd.
  revert ldj Hl Hlen.
  induction Hz as [| r z Hr Hz IH]; intros [| a ldj] Hl Hlen; simpl in Hlen;
    try discriminate; cbn [map zip_with]; constructor.
  - inversion Hl; subst.
    destruct (nsum_bounded (row_log_scale c r)) as (s & Hs & Hbd).
    { apply log_scale_entries_bounded; [now apply row_s_fin | assumption]. }
    rewrite row_log_scale_length in Hbd by assumption.
    destruct (is_fin_inv a H1) as [x ->]. rewrite Hs.
    exists x, (x + s). repeat split.
    apply Rabs_le. lra.
  - inversion Hl; subst. apply IH; [assumption | lia].
Qed.

(** X5. With [log_scale = tanh(.) * (1 - mask)] every scale exponent lies
    strictly between -1 and 1, so one forward pass of a coupling layer moves
    each example's [ldj] by at most the layer width in absolute value. *)
Theorem coupling_forward_ldj_step_bounded
        (c : Coupling) (z : mat) (ldj : vec) :
  wf_coupling c -> fin_coupling c -> binary (mask c) ->
  tfin z -> vfin ldj -> length ldj = length z ->
  Forall2 (fun a b => exists x y, a = Fin x /\ b = Fin y /\
                                  Rabs (y - x) <= INR (c_in c))
          ldj (snd (Coupling_forward c z ldj false)).
Proof. exact (coupling_ldj_step c z ldj). Qed.

Lemma coupling_forward_ldj_step_bounded_witness :
  Forall2 (fun a b => exists x y, a = Fin x /\ b = Fin y /\ Rabs (y - x) <= INR 2)
          [Fin 0] (snd (Coupling_forward small_coupling small_batch [Fin 0] false)).
Proof.
  apply (coupling_forward_ldj_step_bounded small_coupling small_batch [Fin 0]).
  - exact small_coupling_wf.
  - exact small_coupling_fin.
  - exact small_coupling_binary.
  - exact small_batch_fin.
  - repeat constructor.
  - reflexivity.
Defined.

(** ** A freshly constructed flow *)

Lemma flat_map_pairs_length {A B : Type} (f g : A -> B) (l : list A) :
  length (flat_map (fun i => [f i; g i]) l) = (2 * length l)%nat.
Proof. induction l as [| a l IH]; simpl; [reflexivity | rewrite IH; lia]. Qed.

Lemma Flow_init_length (channels n_flows : nat)
      (inits : nat -> (Linear * Linear) * (Linear * Linear)) :
  length (layers (Flow_init channels n_flows inits)) = (2 * n_flows)%nat.
Proof.
  unfold Flow_init. cbn [layers].
  rewrite flat_map_pairs_length, length_seq. reflexivity.
Qed.

(** X6. [Flow(shape=[784], n_flows)] builds [2 * n_flows] layers, and right
    after construction the flow is the identity in both directions: it
    returns the batch and the accumulator it was given. *)
Theorem fresh_flow_is_identity
        (n_flows B : nat) (inits : nat -> (Linear * Linear) * (Linear * Linear))
        (z : mat) (logdet : vec) (reverse : bool) :
  (forall i,
      wf_linear 1024 784 (fst (fst (inits i))) /\ fin_linear (fst (fst (inits i))) /\
      wf_linear 1024 1024 (snd (fst (inits i))) /\ fin_linear (snd (fst (inits i))) /\
      wf_linear 1024 784 (fst (snd (inits i))) /\ fin_linear (fst (snd (inits i))) /\
      wf_linear 1024 1024 (snd (snd (inits i))) /\ fin_linear (snd (snd (inits i)))) ->
  shape z B 784 -> tfin z -> length logdet = B ->
  length (layers (Flow_init 784 n_flows inits)) = (2 * n_flows)%nat /\
  Flow_forward (Flow_init 784 n_flows inits) z logdet reverse = (z, logdet).
Proof.
  intros Hi [HB Hsh] Hz Hl. split; [apply Flow_init_length |].
  pose proof (Flow_init_layers n_flows inits Hi) as Hls.
  assert (Hlen : length logdet = length z) by congruence.
  unfold Flow_forward. destruct reverse; cbn [negb].
  - apply fold_identity_layers with (D := 784%nat); auto. now apply Forall_rev.
  - apply fold_identity_layers with (D := 784%nat); auto.
Qed.

Lemma fresh_flow_is_identity_witness :
  length (layers (Flow_init 784 4 const_inits)) = 8%nat /\
  Flow_forward (Flow_init 784 4 const_inits) (const_batch 2 3) (zeros 2) false
  = (const_batch 2 3, zeros 2).
Proof.
  apply (fresh_flow_is_identity 4 2 const_inits (const_batch 2 3) (zeros 2) false).
  - exact const_inits_ok.
  - exact (shape_repeat (repeat (Fin 3) 784) 2).
  - apply tfin_repeat.
  - reflexivity.
Defined.

(** X7. A freshly constructed model samples [256 * sigmoid(eps)]: with the
    flow still the identity, [Model.sample] maps the prior draw through the
    sigmoid and the multiplication by 256 only. *)
Theorem fresh_model_sample
        (n_samples : nat) (inits : nat -> (Linear * Linear) * (Linear * Linear))
        (eps : mat) :
  (forall i,
      wf_linear 1024 784 (fst (fst (inits i))) /\ fin_linear (fst (fst (inits i))) /\
      wf_linear 1024 1024 (snd (fst (inits i))) /\ fin_linear (snd (fst (inits i))) /\
      wf_linear 1024 784 (fst (snd (inits i))) /\ fin_linear (fst (snd (inits i))) /\
      wf_linear 1024 1024 (snd (snd (inits i))) /\ fin_linear (snd (snd (inits i)))) ->
  shape eps n_samples 784 -> tfin eps ->
  Model_sample (Model_init 784 inits) n_samples eps
  = tmap (fun a => nmul (nsigmoid a) (Fin 256)) eps.
Proof.
  intros Hi [HB Hsh] He. unfold Model_sample, Model_init. cbn [flow].
  pose proof (Flow_init_layers 4 inits Hi) as Hls.
  assert (E : Flow_forward (Flow_init 784 4 inits) eps (zeros n_samples) true
              = (eps, zeros n_samples)).
  { unfold Flow_forward. cbn [negb].
    apply fold_identity_layers with (D := 784%nat); auto.
    - now apply Forall_rev.
    - rewrite zeros_length. congruence. }
  rewrite E. unfold logit_normalize. cbn [negb]. apply tmap_tmap.
Qed.

Lemma fresh_model_sample_witness :
  Model_sample (Model_init 784 const_inits) 3 (const_batch 3 0)
  = tmap (fun a => nmul (nsigmoid a) (Fin 256)) (const_batch 3 0).
Proof.
  apply (fresh_model_sample 3 const_inits (const_batch 3 0)).
  - exact const_inits_ok.
  - exact (shape_repeat (repeat (Fin 0) 784) 3).
  - apply tfin_repeat.
Defined.

(** ** Reach of the logit normalization *)

Lemma ln_inv_ratio (a b : R) : 0 < a -> 0 < b -> ln a + - ln b = ln (a / b).
Proof.
  intros Ha Hb. unfold Rdiv. rewrite ln_mult, ln_Rinv; auto.
  now apply Rinv_0_lt_compat.
Qed.

Lemma logit_increasing (p q : R) : 0 < p -> p <= q -> q < 1 -> logit p <= logit q.
Proof.
  intros Hp Hpq Hq. unfold logit.
  assert (H1 : ln p <= ln q).
  { destruct (Req_dec p q) as [-> | Hne]; [lra |].
    left. apply ln_increasing; lra. }
  assert (H2 : ln (1 + - q) <= ln (1 + - p)).
  { destruct (Req_dec p q) as [-> | Hne]; [lra |].
    left. apply ln_increasing; lra. }
  lra.
Qed.

Lemma logit_strictly_increasing (p q : R) :
  0 < p -> p < q -> q < 1 -> logit p < logit q.
Proof.
  intros Hp Hpq Hq. unfold logit.
  assert (H1 : ln p < ln q) by (apply ln_increasing; lra).
  assert (H2 : ln (1 + - q) < ln (1 + - p)) by (apply ln_increasing; lra).
  lra.
Qed.

Lemma logit_low : logit (alpha * (1 / 2)) = - ln 199999.
Proof.
  unfold logit. rewrite ln_inv_ratio by (unfold alpha; lra).
  rewrite <- ln_Rinv by lra. f_equal. unfold alpha. field.
Qed.

Lemma logit_high : logit (1 - alpha * (1 / 2)) = ln 199999.
Proof.
  unfold logit. rewrite ln_inv_ratio by (unfold alpha; lra).
  f_equal. unfold alpha. field.
Qed.

(** X8. On dequantized pixels, i.e. entries in [0, 256), the forward
    [logit_normalize] produces latents bounded by [ln 199999] (about 12.2)
    in absolute value: the [alpha] rescaling keeps the logit away from its
    poles. *)
Theorem logit_normalize_forward_bounded (z : mat) (logdet : vec) :
  trange (fun x => 0 <= x < 256) z ->
  trange (fun y => - ln 199999 <= y < ln 199999)
         (fst (logit_normalize z logdet false)).
Proof.
  intros Hz. rewrite logit_forward_z by assumption.
  eapply tmap_range; [| exact Hz]. intros x Hx.
  exists (logit (squash x)). split; [reflexivity |].
  assert (Hs : alpha * (1 / 2) <= squash x < 1 - alpha * (1 / 2)).
  { unfold squash, alpha. lra. }
  rewrite <- logit_low, <- logit_high. split.
  - apply logit_increasing; unfold alpha in *; lra.
  - apply logit_strictly_increasing; unfold alpha in *; lra.
Qed.

Lemma logit_normalize_forward_bounded_witness :
  trange (fun y => - ln 199999 <= y < ln 199999)
         (fst (logit_normalize (const_batch 2 255) (zeros 2) false)).
Proof.
  apply (logit_normalize_forward_bounded (const_batch 2 255) (zeros 2)).
  apply trange_repeat. lra.
Defined.

(** ** Where the logarithms are defined *)

Lemma nadd_fin_iff (a b : num) : is_fin (nadd a b) <-> is_fin a /\ is_fin b.
Proof. destruct a, b; simpl; tauto. Qed.

Lemma nneg_fin_iff (a : num) : is_fin (nneg a) <-> is_fin a.
Proof. destruct a; simpl; tauto. Qed.

Lemma nsub_fin_iff (a b : num) : is_fin (nsub a b) <-> is_fin a /\ is_fin b.
Proof. unfold nsub. rewrite nadd_fin_iff, nneg_fin_iff. tauto. Qed.

Lemma nlog_fin_iff (x : R) : is_fin (nlog (Fin x)) <-> 0 < x.
Proof.
  unfold nlog, sign_case.
  destruct (total_order_T x 0) as [[Hlt | Heq] | Hgt]; simpl; split;
    intros H; try contradiction; try exact I; lra.
Qed.

Lemma nsum_fin_iff (v : vec) : is_fin (nsum v) <-> vfin v.
Proof.
  unfold nsum, vfin. induction v as [| a v IH]; cbn [fold_right].
  - split; [constructor | intros _; exact I].
  - rewrite nadd_fin_iff, IH. split.
    + intros [Ha Hv]. now constructor.
    + intros H. inversion H; subst. now split.
Qed.

Lemma zip_with_nadd_fin_iff (a b : vec) :
  length a = length b ->
  (vfin (zip_with nadd a b) <-> vfin a /\ vfin b).
Proof.
  unfold vfin. revert b. induction a as [| x a IH]; intros [| y b] Hl;
    simpl in Hl; try discriminate; cbn [zip_with].
  - split; [intros _; split; constructor | intros _; constructor].
  - injection Hl as Hl. specialize (IH b Hl). split.
    + intros H. inversion H as [| ? ? Hxy Hr]; subst.
      apply nadd_fin_iff in Hxy. apply IH in Hr.
      split; constructor; tauto.
    + intros [Ha Hb]. inversion Ha; subst. inversion Hb; subst.
      constructor; [apply nadd_fin_iff; tauto | apply IH; tauto].
Qed.

Lemma tmap_fin_iff (f : num -> num) (P : R -> Prop) (z : mat) :
  (forall x, is_fin (f (Fin x)) <-> P x) ->
  tfin z -> (tfin (tmap f z) <-> trange P z).
Proof.
  intros Hf Hz. unfold tfin, trange, tmap.
  induction Hz as [| r z Hr Hz IH]; cbn [map].
  - split; intros _; constructor.
  - assert (Hrow : vfin (map f r) <-> vrange P r).
    { clear IH Hz. unfold vfin, vrange.
      induction Hr as [| a r Ha Hr IHr]; cbn [map].
      - split; intros _; constructor.
      - destruct (is_fin_inv a Ha) as [x ->]. split.
        + intros H. inversion H; subst. constructor; [| tauto].
          exists x. split; [reflexivity | now apply Hf].
        + intros H. inversion H as [| ? ? (y & Ey & Hy) Hr']; subst.
          injection Ey as <-. constructor; [now apply Hf | tauto]. }
    split.
    + intros H. inversion H; subst. constructor; tauto.
    + intros H. inversion H; subst. constructor; tauto.
Qed.

Lemma logit_elem_fin_iff (p : R) :
  is_fin (nsub (nlog (Fin p)) (nlog (nsub (Fin 1) (Fin p)))) <-> 0 < p < 1.
Proof.
  rewrite nsub_fin_iff. unfold nsub at 1. cbn [nneg nadd].
  rewrite !nlog_fin_iff. split; intros H; lra.
Qed.

(** X9. On a real-valued batch the forward [logit_normalize] yields a
    real-valued (finite) tensor exactly when every entry lies strictly
    between -128/99999 and 25599872/99999 (about -0.00128 and 256.00128);
    any entry outside makes its output infinite or NaN. *)
Theorem logit_normalize_forward_domain (z : mat) (logdet : vec) :
  tfin z ->
  (tfin (fst (logit_normalize z logdet false)) <->
   trange (fun x => - 128 / 99999 < x < 25599872 / 99999) z).
Proof.
  intros Hz. unfold logit_normalize. cbn [negb fst]. rewrite !tmap_tmap.
  apply tmap_fin_iff; [| assumption].
  intros x. rewrite squash_elem, logit_elem_fin_iff.
  unfold squash, alpha. split; intros H; lra.
Qed.

Lemma logit_normalize_forward_domain_witness :
  tfin (fst (logit_normalize (const_batch 1 256) (zeros 1) false)) <->
  trange (fun x => - 128 / 99999 < x < 25599872 / 99999) (const_batch 1 256).
Proof.
  apply (logit_normalize_forward_domain (const_batch 1 256) (zeros 1)).
  apply tfin_repeat.
Defined.

Lemma ldj_sigmoid_elem_fin_iff (y : R) :
  is_fin (nadd (nlog (Fin y)) (nlog (nsub (Fin 1) (Fin y)))) <-> 0 < y < 1.
Proof.
  rewrite nadd_fin_iff. unfold nsub. cbn [nneg nadd].
  rewrite !nlog_fin_iff. split; intros H; lra.
Qed.

Lemma tsum_rows_fin_iff (z : mat) : vfin (tsum_rows z) <-> tfin z.
Proof.
  unfold tsum_rows, vfin, tfin. induction z as [| r z IH]; cbn [map].
  - split; intros _; constructor.
  - split; intros H; inversion H; subst; constructor;
      try (apply nsum_fin_iff; assumption); tauto.
Qed.

(** X10. In the reverse direction of [logit_normalize] the returned
    accumulator is finite exactly when every latent entry lies strictly
    between 0 and 1 (the logarithms are taken of the latent itself); one
    entry outside makes the accumulator of its example infinite or NaN. *)
Theorem logit_normalize_reverse_logdet_domain (z : mat) (logdet : vec) :
  tfin z -> vfin logdet -> length logdet = length z ->
  (vfin (snd (logit_normalize z logdet true)) <->
   trange (fun y => 0 < y < 1) z).
Proof.
  intros Hz Hl Hlen. unfold logit_normalize. cbn [negb snd]. unfold vadd.
  assert (L1 : length logdet = length (ldj_sigmoid z)).
  { unfold ldj_sigmoid, tsum_rows, tmap. now rewrite !length_map. }
  assert (L2 : length (zip_with nadd logdet (ldj_sigmoid z))
               = length (log256_term (tmap (fun a => nmul a (Fin 256))
                                           (tmap nsigmoid z)))).
  { rewrite zip_with_length. unfold log256_term, ldj_sigmoid, tsum_rows, tmap.
    rewrite !length_map. unfold mat, vec in *. lia. }
  rewrite (zip_with_nadd_fin_iff _ _ L2), (zip_with_nadd_fin_iff _ _ L1).
  unfold ldj_sigmoid. rewrite tsum_rows_fin_iff.
  rewrite (tmap_fin_iff _ (fun y => 0 < y < 1) z ldj_sigmoid_elem_fin_iff Hz).
  pose proof (log256_term_fin (tmap (fun a => nmul a (Fin 256)) (tmap nsigmoid z))).
  tauto.
Qed.

Lemma logit_normalize_reverse_logdet_domain_witness :
  vfin (snd (logit_normalize (const_batch 2 (-1)) (zeros 2) true)) <->
  trange (fun y => 0 < y < 1) (const_batch 2 (-1)).
Proof.
  apply (logit_normalize_reverse_logdet_domain (const_batch 2 (-1)) (zeros 2)).
  - apply tfin_repeat.
  - apply zeros_fin.
  - reflexivity.
Defined.

(** ** Encoding and decoding through the whole model *)

Lemma logit_reverse_z_indep (z : mat) (l l' : vec) :
  fst (logit_normalize z l true) = fst (logit_normalize z l' true).
Proof. reflexivity. Qed.

(** X11. Encoding a dequantized batch with the forward pipeline of
    [Model.forward] (logit normalization, then the flow) and decoding the
    latent with the reverse pipeline of [Model.sample] (reverse flow, then
    reverse logit normalization) returns [x * (1 - alpha) + 128 * alpha] in
    every entry: the flow is undone exactly, the [alpha] rescaling is not. *)
Theorem model_encode_then_decode
        (m : Model) (B D : nat) (x : mat) (logdet : vec) :
  Forall (fun c => flow_layer D c /\ binary (mask c)) (layers (flow m)) ->
  shape x B D -> trange (fun v => 0 <= v < 256) x ->
  length logdet = B -> vfin logdet ->
  let enc := logit_normalize x logdet false in
  let lat := Flow_forward (flow m) (fst enc) (snd enc) false in
  let dec := Flow_forward (flow m) (fst lat) (snd lat) true in
  fst (logit_normalize (fst dec) (snd dec) true)
  = tmap (fun a => nadd (nmul a (Fin (1 - alpha))) (Fin (128 * alpha))) x.
Proof.
  intros Hls Hsh Hx Hl Hfl enc lat dec.
  destruct (logit_forward_ok B D x logdet Hsh Hx Hl Hfl) as ([_ Hs1] & Hz1 & _).
  fold enc in Hs1, Hz1.
  assert (E : fst dec = fst enc).
  { subst dec lat. unfold Flow_forward. cbn [negb].
    rewrite fold_reverse_state, fold_forward_z. cbn [fst].
    now apply fold_fwd_then_rev with (D := D). }
  rewrite E, (logit_reverse_z_indep (fst enc) (snd dec) (snd enc)).
  subst enc. now apply logit_normalize_roundtrip_affine.
Qed.

Lemma model_encode_then_decode_witness :
  let m := {| flow := small_flow |} in
  let x := [[Fin 2; Fin 3]] in
  let enc := logit_normalize x [Fin 0] false in
  let lat := Flow_forward (flow m) (fst enc) (snd enc) false in
  let dec := Flow_forward (flow m) (fst lat) (snd lat) true in
  fst (logit_normalize (fst dec) (snd dec) true)
  = tmap (fun a => nadd (nmul a (Fin (1 - alpha))) (Fin (128 * alpha))) x.
Proof.
  apply (model_encode_then_decode {| flow := small_flow |} 1 2
                                  [[Fin 2; Fin 3]] [Fin 0]).
  - exact small_flow_layers.
  - split; [reflexivity | repeat constructor].
  - repeat constructor; eexists; (split; [reflexivity | lra]).
  - reflexivity.
  - repeat constructor.
Defined.

(** ** The prior *)

Lemma ln_2PI_pos : 0 < ln (2 * PI).
Proof.
  pose proof PI2_1 as H. rewrite <- ln_1. apply ln_increasing; lra.
Qed.

(** X12. On real-valued input every entry of [log_prior] is at most
    [- ln(2 pi) / 2], hence negative: the standard-Gaussian term of
    [log_px] can only lower the log-likelihood. *)
Theorem log_prior_upper_bound (x : mat) :
  tfin x ->
  trange (fun v => v <= - ln (2 * PI) / 2 /\ v < 0) (log_prior x).
Proof.
  intros Hx. unfold log_prior.
  apply tmap_range with (P := fun _ => True).
  - intros a _. eexists. split; [reflexivity |].
    pose proof ln_2PI_pos as Hp. pose proof (Rle_0_sqr a) as Hs.
    unfold Rsqr in Hs. split; nra.
  - unfold trange, tfin in *. eapply Forall_impl; [| exact Hx].
    intros r Hr. unfold vrange, vfin in *. eapply Forall_impl; [| exact Hr].
    intros a Ha. destruct (is_fin_inv a Ha) as [v ->]. eauto.
Qed.

Lemma log_prior_upper_bound_witness :
  trange (fun v => v <= - ln (2 * PI) / 2 /\ v < 0) (log_prior (const_batch 2 1)).
Proof.
  apply (log_prior_upper_bound (const_batch 2 1)). apply tfin_repeat.
Defined.

(** * The epoch driver of the flow file *)

Lemma nadd_comm (a b : num) : nadd a b = nadd b a.
Proof. destruct a, b; simpl; try reflexivity. f_equal. ring. Qed.

Lemma nadd_assoc (a b c : num) : nadd a (nadd b c) = nadd (nadd a b) c.
Proof. destruct a, b, c; simpl; try reflexivity. f_equal. ring. Qed.

Lemma fold_left_nadd_nsum (l : vec) : fold_left nadd l (Fin 0) = nsum l.
Proof.
  unfold nsum. apply fold_symmetric.
  - apply nadd_assoc.
  - intros y. apply nadd_comm.
Qed.

Section DriverFacts.

Variable Opt : Type.
Variable update : Model -> Opt -> mat -> mat -> Model * Opt.

(** The loop index after the loop: unbound on empty data, the last index
    otherwise. *)
Lemma loop_idx (data : list (mat * mat)) :
  forall k st,
    NFTrain.idx Opt
      (fold_left (NFTrain.loop_body Opt update) (combine (seq k (length data)) data) st)
    = match data with
      | [] => NFTrain.idx Opt st
      | _ :: _ => Some (k + length data - 1)%nat
      end.
Proof.
  induction data as [| b data IH]; intros k st; [reflexivity |].
  cbn [length seq combine fold_left]. rewrite IH.
  destruct data as [| b' data]; cbn [NFTrain.loop_body NFTrain.idx fst length].
  - f_equal. lia.
  - f_equal. lia.
Qed.

(** In evaluation mode the loop leaves the world alone and adds up the
    bits per dimension of the batches. *)
Lemma loop_eval (w : NFTrain.World Opt) (data : list (mat * mat)) :
  NFTrain.training w = false ->
  forall k acc i,
    fold_left (NFTrain.loop_body Opt update) (combine (seq k (length data)) data)
              {| NFTrain.world := w; NFTrain.avg_bpd := acc; NFTrain.idx := i |}
    = {| NFTrain.world := w;
         NFTrain.avg_bpd :=
           fold_left nadd (map (NFTrain.batch_bpd (NFTrain.model w)) data) acc;
         NFTrain.idx :=
           match data with
           | [] => i
           | _ :: _ => Some (k + length data - 1)%nat
           end |}.
Proof.
  intros Hev. induction data as [| b data IH]; intros k acc i; [reflexivity |].
  cbn [length seq combine fold_left map].
  unfold NFTrain.loop_body at 2. cbn [NFTrain.world NFTrain.avg_bpd fst snd].
  rewrite Hev, IH. unfold NFTrain.batch_bpd at 2. f_equal.
  destruct data; cbn [length]; f_equal; lia.
Qed.

Lemma epoch_iter_eval (w : NFTrain.World Opt) (data : list (mat * mat)) :
  NFTrain.training w = false -> data <> [] ->
  NFTrain.epoch_iter Opt update w data
  = (w, inr (ndiv (nsum (map (NFTrain.batch_bpd (NFTrain.model w)) data))
                  (Fin (INR (length data))))).
Proof.
  intros Hev Hne. unfold NFTrain.epoch_iter.
  rewrite (loop_eval w data Hev 0 (Fin 0) None).
  destruct data as [| b data]; [congruence |].
  cbn [NFTrain.idx NFTrain.world NFTrain.avg_bpd].
  rewrite fold_left_nadd_nsum.
  replace (0 + length (b :: data) - 1 + 1)%nat with (length (b :: data))
    by (cbn [length]; lia).
  reflexivity.
Qed.

(** X14. In evaluation mode ([model.training] false) and on non-empty data,
    [epoch_iter] changes neither the parameters nor the optimizer and
    returns the mean over the batches of [- mean(log_px) / 784 / ln 2]. *)
Theorem nf_epoch_iter_eval_mode (w : NFTrain.World Opt) (data : list (mat * mat)) :
  NFTrain.training w = false -> data <> [] ->
  NFTrain.epoch_iter Opt update w data
  = (w, inr (ndiv (nsum (map (NFTrain.batch_bpd (NFTrain.model w)) data))
                  (Fin (INR (length data))))).
Proof. exact (epoch_iter_eval w data). Qed.

(** On non-empty data [epoch_iter] returns a value, in either mode. *)
Lemma epoch_iter_nonempty_returns (w : NFTrain.World Opt) (data : list (mat * mat)) :
  data <> [] ->
  exists v, snd (NFTrain.epoch_iter Opt update w data) = inr v.
Proof.
  intros Hne. unfold NFTrain.epoch_iter.
  pose proof (loop_idx data 0
                {| NFTrain.world := w; NFTrain.avg_bpd := Fin 0;
                   NFTrain.idx := None |}) as Hi.
  destruct data as [| b data]; [congruence |].
  rewrite Hi. eexists. reflexivity.
Qed.

(** X13. [epoch_iter] raises [UnboundLocalError] exactly when the data
    loader is empty (the loop variable [idx] is then read after a loop that
    never ran), and in that case leaves model and optimizer untouched; on
    any non-empty loader it returns a value. *)
Theorem nf_epoch_iter_raises_iff_empty
        (w : NFTrain.World Opt) (data : list (mat * mat)) :
  (snd (NFTrain.epoch_iter Opt update w data) = inl NFTrain.UnboundLocalError
   <-> data = []) /\
  (data = [] -> fst (NFTrain.epoch_iter Opt update w data) = w).
Proof.
  split; [split |].
  - intros Hr. destruct data as [| b data]; [reflexivity |].
    destruct (epoch_iter_nonempty_returns w (b :: data)) as [v Hv];
      [discriminate |].
    rewrite Hv in Hr. discriminate.
  - intros ->. reflexivity.
  - intros ->. reflexivity.
Qed.

(** The mode flag is not touched by the loop. *)
Lemma loop_keeps_training (data : list (nat * (mat * mat))) :
  forall st,
    NFTrain.training (NFTrain.world Opt (fold_left (NFTrain.loop_body Opt update) data st))
    = NFTrain.training (NFTrain.world Opt st).
Proof.
  induction data as [| it data IH]; intros st; [reflexivity |].
  cbn [fold_left]. rewrite IH. unfold NFTrain.loop_body.
  cbn [NFTrain.world]. destruct (NFTrain.training (NFTrain.world Opt st)) eqn:E;
    cbn [NFTrain.training]; congruence.
Qed.

(** X15. On non-empty training and validation splits [run_epoch] returns
    both averages and leaves the model in evaluation mode; parameters and
    optimizer are exactly those the training pass produced (the validation
    pass changes nothing), and [val_bpd] is the mean bits per dimension of
    the validation batches under those parameters. *)
Theorem nf_run_epoch_returns
        (w : NFTrain.World Opt) (traindata valdata : list (mat * mat)) :
  traindata <> [] -> valdata <> [] ->
  let w1 := fst (NFTrain.epoch_iter Opt update (NFTrain.set_training true w)
                                    traindata) in
  exists train_bpd,
    snd (NFTrain.epoch_iter Opt update (NFTrain.set_training true w) traindata)
    = inr train_bpd /\
    NFTrain.run_epoch Opt update w (traindata, valdata)
    = (NFTrain.set_training false w1,
       inr (train_bpd,
            ndiv (nsum (map (NFTrain.batch_bpd (NFTrain.model w1)) valdata))
                 (Fin (INR (length valdata))))).
Proof.
  intros Ht Hv w1.
  destruct (epoch_iter_nonempty_returns (NFTrain.set_training true w) traindata Ht)
    as [tb Htb].
  exists tb. split; [exact Htb |].
  unfold NFTrain.run_epoch. cbn [fst snd].
  destruct (NFTrain.epoch_iter Opt update (NFTrain.set_training true w) traindata)
    as [w' r] eqn:E.
  cbn [fst snd] in *. subst w1 r.
  rewrite (epoch_iter_eval (NFTrain.set_training false w') valdata) by
    (reflexivity || assumption).
  reflexivity.
Qed.

End DriverFacts.

Lemma nf_epoch_iter_eval_mode_witness :
  let w := {| NFTrain.model := {| flow := small_flow |};
              NFTrain.training := false; NFTrain.optimizer := tt |} in
  let data := [([[Fin 2; Fin 3]], [[Fin (1 / 2); Fin (1 / 2)]])] in
  NFTrain.epoch_iter unit (fun m o _ _ => (m, o)) w data
  = (w, inr (ndiv (nsum (map (NFTrain.batch_bpd (NFTrain.model w)) data))
                  (Fin (INR (length data))))).
Proof.
  apply (nf_epoch_iter_eval_mode unit (fun m o _ _ => (m, o))).
  - reflexivity.
  - discriminate.
Defined.

Lemma nf_run_epoch_returns_witness :
  let w := {| NFTrain.model := {| flow := small_flow |};
              NFTrain.training := false; NFTrain.optimizer := tt |} in
  let data := [([[Fin 2; Fin 3]], [[Fin (1 / 2); Fin (1 / 2)]])] in
  let w1 := fst (NFTrain.epoch_iter unit (fun m o _ _ => (m, o))
                                    (NFTrain.set_training true w) data) in
  exists train_bpd,
    snd (NFTrain.epoch_iter unit (fun m o _ _ => (m, o))
                            (NFTrain.set_training true w) data)
    = inr train_bpd /\
    NFTrain.run_epoch unit (fun m o _ _ => (m, o)) w (data, data)
    = (NFTrain.set_training false w1,
       inr (train_bpd,
            ndiv (nsum (map (NFTrain.batch_bpd (NFTrain.model w1)) data))
                 (Fin (INR (length data))))).
Proof.
  apply (nf_run_epoch_returns unit (fun m o _ _ => (m, o))); discriminate.
Defined.

(** * Further properties of the VAE file *)

(** X16. [run_epoch] of the VAE file raises [NotImplementedError] on every
    call: it first switches the model to training mode, the stub
    [epoch_iter] then raises, and [model.eval()] and the validation pass
    are never reached, so the caller is left with a model in training
    mode. *)
Theorem vae_run_epoch_raises
        (Data Opt : Type) (data : Data * Data) (optimizer : Opt) (s : VAEMore.VAE) :
  VAEMore.run_epoch data optimizer s
  = (Raised NotImplementedError,
     {| VAEMore.z_dim := VAEMore.z_dim s; VAEMore.encoder := VAEMore.encoder s;
        VAEMore.decoder := VAEMore.decoder s; VAEMore.training := true |}).
Proof. reflexivity. Qed.

(** X17. On real-valued parameters and input every entry of the decoder
    output is a non-negative real: the final ReLU bounds it below by 0 and
    not above, so the "means" are not confined to [0, 1]. *)
Theorem decoder_output_nonneg (d : VAEMore.Decoder) (input : mat) :
  fin_linear (VAEMore.linear1 d) -> fin_linear (VAEMore.linear2 d) ->
  tfin input ->
  trange (fun x => 0 <= x) (VAEMore.Decoder_forward d input).
Proof.
  intros H1 H2 Hi. unfold VAEMore.Decoder_forward.
  unfold ReLU, Linear_forward, tmap. rewrite !map_map.
  unfold trange. eapply Forall_map_intro; [| exact Hi]. intros r Hr.
  assert (Hpre : vfin (linear_row (VAEMore.linear2 d)
                                  (map nrelu (linear_row (VAEMore.linear1 d) r)))).
  { apply linear_row_fin; [assumption |].
    apply map_fin; [apply nrelu_fin | now apply linear_row_fin]. }
  unfold linear_row in Hpre. unfold vrange.
  eapply Forall_map_intro; [| exact Hpre]. intros a Ha.
  destruct (is_fin_inv a Ha) as [x ->]. cbn [nrelu].
  eexists. split; [reflexivity | apply Rmax_l].
Qed.

Lemma decoder_output_nonneg_witness :
  trange (fun x => 0 <= x)
         (VAEMore.Decoder_forward
            {| VAEMore.linear1 := const_linear 500 20 1 0;
               VAEMore.linear2 := const_linear 784 500 1 (-1) |}
            (repeat (repeat (Fin 1) 20) 2)).
Proof.
  apply decoder_output_nonneg.
  - apply const_linear_fin.
  - apply const_linear_fin.
  - apply tfin_repeat.
Defined.

(** ** The KL term *)

Lemma ln_sqrt_half (s : R) : 0 < s -> ln (1 / sqrt s) = - (ln s / 2).
Proof.
  intros Hs. pose proof (sqrt_lt_R0 s Hs) as Hq.
  assert (E : ln s = ln (sqrt s) + ln (sqrt s)).
  { rewrite <- ln_mult by assumption. now rewrite sqrt_sqrt by lra. }
  unfold Rdiv at 1. rewrite Rmult_1_l, ln_Rinv by assumption. lra.
Qed.

Lemma kl_elem_closed (m s : R) :
  0 < s ->
  VAEMore.kl_elem (Fin m) (Fin s) = Fin (m * m / (2 * s) - ln s / 2).
Proof.
  intros Hs. pose proof (sqrt_lt_R0 s Hs) as Hq.
  unfold VAEMore.kl_elem, nsqrt. rewrite sign_case_pos by assumption.
  unfold ndiv. rewrite !sign_case_pos by (cbn [nmul]; lra).
  cbn [nmul nadd]. rewrite sign_case_pos by lra.
  rewrite nlog_pos by (apply Rdiv_lt_0_compat; lra).
  unfold nsub. cbn [nneg nadd]. f_equal.
  rewrite ln_sqrt_half by assumption. field. lra.
Qed.

Lemma kl_elem_fin_iff (m s : R) :
  is_fin (VAEMore.kl_elem (Fin m) (Fin s)) <-> 0 < s.
Proof.
  split.
  - intros H. destruct (Rlt_dec 0 s) as [Hs | Hs]; [assumption | exfalso].
    unfold VAEMore.kl_elem in H.
    apply nsub_fin_iff in H. destruct H as [H _].
    apply nadd_fin_iff in H. destruct H as [H _].
    unfold nsqrt, sign_case in H.
    destruct (total_order_T s 0) as [[Hlt | Heq] | Hgt]; [exact H | | lra].
    subst s. rewrite sqrt_0 in H. unfold ndiv in H.
    rewrite sign_case_zero, sign_case_pos in H by lra. exact H.
  - intros Hs. now rewrite kl_elem_closed.
Qed.

Lemma zip2_ext_range (f g : num -> num -> num) (P : R -> Prop)
      (mean std : mat) :
  (forall m s, P s -> f (Fin m) (Fin s) = g (Fin m) (Fin s)) ->
  tfin mean -> trange P std ->
  zip_with (zip_with f) mean std = zip_with (zip_with g) mean std.
Proof.
  intros Hfg Hm. revert std.
  induction Hm as [| r mean Hr Hm IH]; intros [| r' std] Hs; cbn [zip_with];
    try reflexivity.
  inversion Hs; subst. rewrite IH by assumption. f_equal.
  match goal with H : vrange P r' |- _ => rename H into Hr' end.
  clear - Hfg Hr Hr'. revert r' Hr'.
  induction Hr as [| a r Ha Hr IHr]; intros [| b r'] Hr'; cbn [zip_with];
    try reflexivity.
  inversion Hr' as [| ? ? (s & -> & Hs) Hrest]; subst.
  destruct (is_fin_inv a Ha) as [m ->].
  rewrite Hfg, IHr by assumption. reflexivity.
Qed.

(** X18. Where [std] is strictly positive and [mean] real-valued, each
    entry of [kl_divergence(mean, std)] equals
    [mean^2 / (2 std) - ln(std) / 2]. *)
Theorem kl_divergence_closed_form (mean std : mat) :
  tfin mean -> trange (fun s => 0 < s) std ->
  VAEMore.kl_divergence mean std
  = zip_with (zip_with (fun m s =>
                          match m, s with
                          | Fin m, Fin s => Fin (m * m / (2 * s) - ln s / 2)
                          | _, _ => NaN
                          end)) mean std.
Proof.
  intros Hm Hs. unfold VAEMore.kl_divergence.
  apply zip2_ext_range with (P := fun s => 0 < s); auto.
  intros m s H. now apply kl_elem_closed.
Qed.

Lemma kl_divergence_closed_form_witness :
  VAEMore.kl_divergence [[Fin 0; Fin 1]] [[Fin 1; Fin 2]]
  = zip_with (zip_with (fun m s =>
                          match m, s with
                          | Fin m, Fin s => Fin (m * m / (2 * s) - ln s / 2)
                          | _, _ => NaN
                          end)) [[Fin 0; Fin 1]] [[Fin 1; Fin 2]].
Proof.
  apply kl_divergence_closed_form.
  - repeat constructor.
  - repeat constructor; eexists; (split; [reflexivity | lra]).
Defined.

Lemma zip2_fin_iff (f : num -> num -> num) (P : R -> Prop) (mean std : mat) :
  (forall m s, is_fin (f (Fin m) (Fin s)) <-> P s) ->
  tfin mean -> tfin std ->
  map (@length num) mean = map (@length num) std ->
  (tfin (zip_with (zip_with f) mean std) <-> trange P std).
Proof.
  intros Hf Hm. unfold tfin, trange. revert std.
  induction Hm as [| r mean Hr Hm IH]; intros [| r' std] Hs Hl; cbn [map] in Hl;
    try discriminate; cbn [zip_with].
  - split; intros _; constructor.
  - injection Hl as Hlr Hl. inversion Hs as [| ? ? Hr' Hs']; subst.
    specialize (IH std Hs' Hl).
    assert (Hrow : vfin (zip_with f r r') <-> vrange P r').
    { clear IH Hl Hs Hs' Hm. unfold vfin, vrange. revert r' Hr' Hlr.
      induction Hr as [| a r Ha Hr IHr]; intros [| b r'] Hr' Hlr; cbn [length] in Hlr;
        try discriminate; cbn [zip_with].
      - split; intros _; constructor.
      - injection Hlr as Hlr. inversion Hr' as [| ? ? Hb Hr'']; subst.
        destruct (is_fin_inv a Ha) as [m ->]. destruct (is_fin_inv b Hb) as [s ->].
        specialize (IHr r' Hr'' Hlr). split.
        + intros H. inversion H; subst. constructor; [| tauto].
          exists s. split; [reflexivity | now apply (Hf m s)].
        + intros H. inversion H as [| ? ? (y & Ey & Hy) Hrest]; subst.
          injection Ey as <-. constructor; [now apply Hf | tauto]. }
    split; intros H; inversion H; subst; constructor; tauto.
Qed.

(** X19. For real-valued [mean] and [std] of one shape, [kl_divergence]
    is finite in every entry exactly when [std] is strictly positive in
    every entry: a zero or negative [std] gives an infinite or NaN KL
    term. *)
Theorem kl_divergence_finite_iff (mean std : mat) :
  tfin mean -> tfin std ->
  map (@length num) mean = map (@length num) std ->
  (tfin (VAEMore.kl_divergence mean std) <-> trange (fun s => 0 < s) std).
Proof.
  intros Hm Hs Hl. unfold VAEMore.kl_divergence.
  apply zip2_fin_iff; auto. intros m s. apply kl_elem_fin_iff.
Qed.

Lemma kl_divergence_finite_iff_witness :
  tfin (VAEMore.kl_divergence [[Fin 0; Fin 1]] [[Fin 0; Fin 2]]) <->
  trange (fun s => 0 < s) [[Fin 0; Fin 2]].
Proof.
  apply kl_divergence_finite_iff.
  - repeat constructor.
  - repeat constructor.
  - reflexivity.
Defined.

(** X20. With [mean = 0] and every [std] entry above 1 every entry of
    [kl_divergence] is strictly negative: the term the code computes is not
    bounded below by 0. *)
Theorem kl_divergence_negative_above_one (std : mat) :
  trange (fun s => 1 < s) std ->
  trange (fun v => v < 0)
         (VAEMore.kl_divergence (tmap (fun _ => Fin 0) std) std).
Proof.
  intros Hs. unfold VAEMore.kl_divergence, tmap, trange.
  rewrite <- (map_id std) at 2. rewrite zip_with_map_same.
  eapply Forall_map_intro; [| exact Hs]. intros r Hr. cbn beta.
  rewrite <- (map_id r) at 2. rewrite zip_with_map_same.
  unfold vrange. eapply Forall_map_intro; [| exact Hr].
  intros a (s & -> & H1). cbn beta.
  rewrite kl_elem_closed by lra. eexists. split; [reflexivity |].
  assert (Hl : 0 < ln s) by (rewrite <- ln_1; apply ln_increasing; lra).
  unfold Rdiv. rewrite Rmult_0_l, Rmult_0_l. lra.
Qed.

Lemma kl_divergence_negative_above_one_witness :
  trange (fun v => v < 0)
         (VAEMore.kl_divergence (tmap (fun _ => Fin 0) [[Fin 2; Fin 3]])
                                [[Fin 2; Fin 3]]).
Proof.
  apply kl_divergence_negative_above_one.
  repeat constructor; eexists; (split; [reflexivity | lra]).
Defined.

(** * The checkerboard mask *)

Lemma nth_error_seq_lt (a n i : nat) :
  (i < n)%nat -> nth_error (seq a n) i = Some (a + i)%nat.
Proof.
  revert a i. induction n as [| n IH]; intros a [| i] Hi; try lia; simpl.
  - f_equal. lia.
  - rewrite IH by lia. f_equal. lia.
Qed.

Lemma nth_error_app_block {A : Type} (l1 l2 : list A) (j : nat) :
  nth_error (l1 ++ l2) (length l1 + j) = nth_error l2 j.
Proof. induction l1 as [| a l1 IH]; simpl; auto. Qed.

Lemma nth_error_flat_map_blocks {A B : Type} (f : A -> list B) (n : nat)
      (l : list A) :
  (forall x, length (f x) = n) ->
  forall i j, (j < n)%nat ->
  nth_error (flat_map f l) (n * i + j)
  = match nth_error l i with
    | Some x => nth_error (f x) j
    | None => None
    end.
Proof.
  intros Hf. induction l as [| a l IH]; intros i j Hj.
  - simpl. destruct i; simpl; apply nth_error_None; simpl; lia.
  - cbn [flat_map]. destruct i as [| i].
    + rewrite Nat.mul_0_r, Nat.add_0_l. cbn [nth_error].
      apply nth_error_app1. rewrite Hf. exact Hj.
    + replace (n * S i + j)%nat with (length (f a) + (n * i + j))%nat
        by (rewrite Hf; lia).
      rewrite nth_error_app_block. cbn [nth_error]. now apply IH.
Qed.

(** X21. [get_mask()] is the checkerboard in row-major order: for row [i]
    and column [j] of the 28 x 28 image, entry [28 * i + j] of the flattened
    mask is 1 when [i + j] is even and 0 otherwise. *)
Theorem get_mask_checkerboard (i j : nat) :
  (i < 28)%nat -> (j < 28)%nat ->
  nth_error get_mask (28 * i + j)
  = Some (if Nat.even (i + j) then Fin 1 else Fin 0).
Proof.
  intros Hi Hj. unfold get_mask.
  rewrite nth_error_flat_map_blocks with (n := 28%nat);
    [| intros x; now rewrite length_map, length_seq | exact Hj].
  rewrite nth_error_seq_lt by exact Hi.
  rewrite nth_error_map, nth_error_seq_lt by exact Hj.
  cbn [option_map Nat.add]. f_equal.
  rewrite <- Nat.bit0_mod, Nat.bit0_odd, <- Nat.negb_even.
  destruct (Nat.even (i + j)); reflexivity.
Qed.

Lemma get_mask_checkerboard_witness :
  nth_error get_mask (28 * 1 + 1) = Some (if Nat.even (1 + 1) then Fin 1 else Fin 0).
Proof. apply get_mask_checkerboard; lia. Defined.

(** * Examples of a batch do not interact *)

Lemma zip_with_app {A B C : Type} (f : A -> B -> C) (a1 a2 : list A) (b1 b2 : list B) :
  length a1 = length b1 ->
  zip_with f (a1 ++ a2) (b1 ++ b2) = zip_with f a1 b1 ++ zip_with f a2 b2.
Proof.
  revert b1. induction a1 as [| x a1 IH]; intros [| y b1] Hl; simpl in Hl;
    try discriminate; simpl; [reflexivity |].
  injection Hl as Hl. now rewrite IH.
Qed.

Lemma Coupling_forward_app (c : Coupling) (z1 z2 : mat) (l1 l2 : vec) (reverse : bool) :
  length l1 = length z1 ->
  Coupling_forward c (z1 ++ z2) (l1 ++ l2) reverse
  = (fst (Coupling_forward c z1 l1 reverse) ++ fst (Coupling_forward c z2 l2 reverse),
     snd (Coupling_forward c z1 l1 reverse) ++ snd (Coupling_forward c z2 l2 reverse)).
Proof.
  intros Hl. destruct reverse.
  - rewrite !Coupling_forward_rev_rows. cbn [fst snd]. now rewrite map_app.
  - rewrite !Coupling_forward_fwd_rows. cbn [fst snd]. rewrite !map_app.
    unfold vadd. rewrite zip_with_app; [reflexivity |].
    now rewrite length_map.
Qed.

Lemma Coupling_forward_lengths (c : Coupling) (z : mat) (l : vec) (reverse : bool) :
  length l = length z ->
  length (snd (Coupling_forward c z l reverse))
  = length (fst (Coupling_forward c z l reverse)).
Proof.
  intros Hl. destruct reverse.
  - rewrite Coupling_forward_rev_rows. cbn [fst snd]. now rewrite length_map.
  - rewrite Coupling_forward_fwd_rows. cbn [fst snd]. unfold vadd.
    rewrite zip_with_length, !length_map. unfold mat, vec in *. lia.
Qed.

Lemma fold_layers_app (reverse : bool) (ls : list Coupling) :
  forall (z1 z2 : mat) (l1 l2 : vec),
    length l1 = length z1 ->
    fold_left (fun st layer => Coupling_forward layer (fst st) (snd st) reverse)
              ls (z1 ++ z2, l1 ++ l2)
    = (fst (fold_left (fun st layer => Coupling_forward layer (fst st) (snd st) reverse)
                      ls (z1, l1))
       ++ fst (fold_left (fun st layer => Coupling_forward layer (fst st) (snd st) reverse)
                         ls (z2, l2)),
       snd (fold_left (fun st layer => Coupling_forward layer (fst st) (snd st) reverse)
                      ls (z1, l1))
       ++ snd (fold_left (fun st layer => Coupling_forward layer (fst st) (snd st) reverse)
                         ls (z2, l2))).
Proof.
  induction ls as [| c ls IH]; intros z1 z2 l1 l2 Hl; [reflexivity |].
  cbn [fold_left fst snd]. rewrite Coupling_forward_app by assumption.
  rewrite IH by (now apply Coupling_forward_lengths).
  rewrite <- !surjective_pairing. reflexivity.
Qed.

Lemma Flow_forward_app (f : Flow) (z1 z2 : mat) (l1 l2 : vec) (reverse : bool) :
  length l1 = length z1 ->
  Flow_forward f (z1 ++ z2) (l1 ++ l2) reverse
  = (fst (Flow_forward f z1 l1 reverse) ++ fst (Flow_forward f z2 l2 reverse),
     snd (Flow_forward f z1 l1 reverse) ++ snd (Flow_forward f z2 l2 reverse)).
Proof.
  intros Hl. unfold Flow_forward. destruct reverse; cbn [negb];
    now apply fold_layers_app.
Qed.

Lemma logit_normalize_app (z1 z2 : mat) (l1 l2 : vec) (reverse : bool) :
  length l1 = length z1 ->
  logit_normalize (z1 ++ z2) (l1 ++ l2) reverse
  = (fst (logit_normalize z1 l1 reverse) ++ fst (logit_normalize z2 l2 reverse),
     snd (logit_normalize z1 l1 reverse) ++ snd (logit_normalize z2 l2 reverse)).
Proof.
  intros Hl. unfold logit_normalize.
  destruct reverse; cbn [negb fst snd];
    unfold ldj_logit, ldj_sigmoid, log256_term, tsum_rows, tmap, vadd, vsub;
    rewrite !map_app; f_equal;
    repeat (rewrite zip_with_app;
            [| rewrite ?zip_with_length, ?length_map;
               unfold mat, vec in *; lia]);
    reflexivity.
Qed.

Lemma logit_normalize_lengths (z : mat) (l : vec) (reverse : bool) :
  length l = length z ->
  length (snd (logit_normalize z l reverse))
  = length (fst (logit_normalize z l reverse)).
Proof.
  intros Hl. unfold logit_normalize.
  destruct reverse; cbn [negb fst snd];
    unfold ldj_logit, ldj_sigmoid, log256_term, tsum_rows, tmap, vadd, vsub;
    rewrite ?zip_with_length, ?length_map; unfold mat, vec in *; lia.
Qed.

Lemma Flow_forward_lengths (f : Flow) (z : mat) (l : vec) (reverse : bool) :
  length l = length z ->
  length (snd (Flow_forward f z l reverse))
  = length (fst (Flow_forward f z l reverse)).
Proof.
  intros Hl. unfold Flow_forward.
  assert (H : forall ls st,
             length (snd st) = length (fst st) ->
             length (snd (fold_left
                            (fun st layer => Coupling_forward layer (fst st) (snd st) reverse)
                            ls st))
             = length (fst (fold_left
                              (fun st layer => Coupling_forward layer (fst st) (snd st) reverse)
                              ls st))).
  { induction ls as [| c ls IH]; intros st Hst; [exact Hst |].
    cbn [fold_left]. apply IH. now apply Coupling_forward_lengths. }
  destruct reverse; cbn [negb]; now apply H.
Qed.

(** X22. [Model.forward] treats the examples of a batch independently:
    the [log_px] of two batches stacked (with their dequantization draws)
    is the concatenation of the [log_px] of each batch alone. *)
Theorem model_forward_batch_independent
        (m : Model) (x1 x2 u1 u2 : mat) :
  length u1 = length x1 ->
  Model_forward m (x1 ++ x2) (u1 ++ u2)
  = Model_forward m x1 u1 ++ Model_forward m x2 u2.
Proof.
  intros Hu. unfold Model_forward, dequantize, tadd.
  rewrite zip_with_app by (symmetry; exact Hu).
  rewrite length_app. unfold zeros at 1. rewrite repeat_app. fold (zeros (length x1)).
  fold (zeros (length x2)).
  assert (L0 : length (zeros (length x1)) = length (zip_with vadd x1 u1)).
  { rewrite zeros_length, zip_with_length. unfold mat, vec in *. lia. }
  rewrite logit_normalize_app by exact L0.
  pose proof (logit_normalize_lengths (zip_with vadd x1 u1) (zeros (length x1)) false L0)
    as L1.
  destruct (logit_normalize (zip_with vadd x1 u1) (zeros (length x1)) false)
    as [a1 b1].
  destruct (logit_normalize (zip_with vadd x2 u2) (zeros (length x2)) false)
    as [a2 b2].
  cbn [fst snd] in *.
  rewrite Flow_forward_app by exact L1.
  pose proof (Flow_forward_lengths (flow m) a1 b1 false L1) as L2.
  destruct (Flow_forward (flow m) a1 b1 false) as [c1 d1].
  destruct (Flow_forward (flow m) a2 b2 false) as [c2 d2].
  cbn [fst snd] in *.
  unfold log_prior, tsum_rows, tmap, vadd. rewrite !map_app.
  apply zip_with_app. rewrite !length_map. symmetry. exact L2.
Qed.

Lemma model_forward_batch_independent_witness :
  Model_forward {| flow := small_flow |}
                ([[Fin 2; Fin 3]] ++ [[Fin 5; Fin 7]])
                ([[Fin 0; Fin 0]] ++ [[Fin (1 / 2); Fin (1 / 2)]])
  = Model_forward {| flow := small_flow |} [[Fin 2; Fin 3]] [[Fin 0; Fin 0]]
    ++ Model_forward {| flow := small_flow |}
                     [[Fin 5; Fin 7]] [[Fin (1 / 2); Fin (1 / 2)]].
Proof. apply model_forward_batch_independent. reflexivity. Defined.

(** * The log-determinant of a whole forward pass *)

Lemma within_trans (K1 K2 : R) (a b c : num) :
  within K1 a b -> within K2 b c -> within (K1 + K2) a c.
Proof.
  intros (x & y & -> & -> & H1) (y' & w & Ey & -> & H2).
  injection Ey as <-. exists x, w. repeat split.
  replace (w - x) with ((w - y) + (y - x)) by ring.
  eapply Rle_trans; [apply Rabs_triang | lra].
Qed.

Lemma Forall2_compose {A : Type} (R1 R2 R3 : A -> A -> Prop) (a b c : list A) :
  (forall x y z, R1 x y -> R2 y z -> R3 x z) ->
  Forall2 R1 a b -> Forall2 R2 b c -> Forall2 R3 a c.
Proof.
  intros H Hab. revert c. induction Hab as [| x y a b Hxy Hab IH]; intros c Hbc.
  - inversion Hbc. constructor.
  - inversion Hbc; subst. constructor; eauto.
Qed.

Lemma within_refl_fin (l : vec) : vfin l -> Forall2 (within 0) l l.
Proof.
  intros Hl. induction Hl as [| a l Ha Hl IH]; constructor; [| exact IH].
  destruct (is_fin_inv a Ha) as [x ->]. exists x, x. repeat split.
  replace (x - x) with 0 by ring. rewrite Rabs_R0. lra.
Qed.

Lemma fold_forward_ldj_bounded (D : nat) (ls : list Coupling) :
  Forall (fun c => flow_layer D c /\ binary (mask c)) ls ->
  forall B st,
    state_ok B D st ->
    Forall2 (within (INR (length ls) * INR D)) (snd st)
            (snd (fold_left
                    (fun st layer => Coupling_forward layer (fst st) (snd st) false)
                    ls st)).
Proof.
  intros Hls. induction Hls as [| c ls [Hc Hb] Hls IH]; intros B st Hst.
  - cbn [fold_left length INR]. rewrite Rmult_0_l.
    apply within_refl_fin. apply Hst.
  - cbn [fold_left].
    assert (Hst' : state_ok B D (Coupling_forward c (fst st) (snd st) false)).
    { destruct Hc as (Hwf & Hfin & <-). now apply Coupling_forward_ok. }
    specialize (IH B _ Hst').
    assert (Hstep : Forall2 (within (INR D)) (snd st)
                            (snd (Coupling_forward c (fst st) (snd st) false))).
    { destruct Hc as (Hwf & Hfin & <-).
      destruct Hst as ([HB _] & Hz & Hl & Hf).
      apply coupling_ldj_step; auto. congruence. }
    eapply Forall2_compose; [| exact Hstep | exact IH].
    intros x y z Hxy Hyz.
    replace (INR (length (c :: ls)) * INR D) with (INR D + INR (length ls) * INR D)
      by (cbn [length]; rewrite S_INR; ring).
    now apply within_trans with y.
Qed.

(** X23. A forward pass through a flow of [n] layers of width [D] (binary
    masks, real-valued parameters) moves the accumulator of each example by
    at most [n * D] in absolute value: the log-determinant the flow can
    contribute is bounded whatever the parameters are. *)
Theorem flow_forward_logdet_bounded
        (f : Flow) (B D : nat) (z : mat) (logdet : vec) :
  Forall (fun c => flow_layer D c /\ binary (mask c)) (layers f) ->
  state_ok B D (z, logdet) ->
  Forall2 (within (INR (length (layers f)) * INR D))
          logdet (snd (Flow_forward f z logdet false)).
Proof.
  intros Hls Hst. unfold Flow_forward. cbn [negb].
  exact (fold_forward_ldj_bounded D (layers f) Hls B (z, logdet) Hst).
Qed.

Lemma flow_forward_logdet_bounded_witness :
  Forall2 (within (INR 2 * INR 2))
          [Fin 0] (snd (Flow_forward small_flow small_batch [Fin 0] false)).
Proof.
  apply (flow_forward_logdet_bounded small_flow 1 2 small_batch [Fin 0]).
  - exact small_flow_layers.
  - unfold state_ok. cbn [fst snd].
    split; [split; [reflexivity | exact small_batch_shape] |].
    split; [exact small_batch_fin |].
    split; [reflexivity | repeat constructor].
Defined.

(** * Shapes of the VAE networks *)

Lemma Linear_forward_shape (n_out n_in B : nat) (l : Linear) (x : mat) :
  wf_linear n_out n_in l -> length x = B ->
  shape (Linear_forward l x) B n_out.
Proof.
  intros Hl HB. unfold Linear_forward. split.
  - now rewrite length_map.
  - apply Forall_forall. intros r Hr. apply in_map_iff in Hr.
    destruct Hr as (r0 & <- & _). exact (linear_row_length n_out n_in l r0 Hl).
Qed.

Lemma ReLU_shape (B D : nat) (x : mat) : shape x B D -> shape (ReLU x) B D.
Proof. apply tmap_shape. Qed.

(** X24. For an encoder built by [Encoder(hidden_dim, z_dim)] and a batch
    of [B] flattened images, [Encoder.forward] returns [mean] and [std] of
    shape [B, z_dim] each, as its docstring says. *)
Theorem encoder_output_shapes
        (hidden_dim z_dim B : nat) (e : VAE.Encoder) (input : mat) :
  VAE.wf_encoder hidden_dim z_dim e -> shape input B (28 * 28) ->
  shape (fst (VAE.Encoder_forward e input)) B z_dim /\
  shape (snd (VAE.Encoder_forward e input)) B z_dim.
Proof.
  intros (H1 & Hmu & Hstd) [HB _]. unfold VAE.Encoder_forward. cbn [fst snd].
  assert (Hh : length (ReLU (Linear_forward (VAE.linear1 e) input)) = B).
  { apply (ReLU_shape B hidden_dim).
    now apply Linear_forward_shape with (n_in := (28 * 28)%nat). }
  split.
  - now apply Linear_forward_shape with (n_in := hidden_dim).
  - apply ReLU_shape. now apply Linear_forward_shape with (n_in := hidden_dim).
Qed.

Lemma encoder_output_shapes_witness :
  shape (fst (VAE.Encoder_forward VAE.dead_std_encoder VAE.blank_image)) 1 20 /\
  shape (snd (VAE.Encoder_forward VAE.dead_std_encoder VAE.blank_image)) 1 20.
Proof.
  apply (encoder_output_shapes 500 20 1 VAE.dead_std_encoder VAE.blank_image).
  - unfold VAE.wf_encoder, VAE.dead_std_encoder.
    cbn [VAE.linear1 VAE.linear_mu VAE.linear_std].
    split; [apply zero_linear_wf | split; [apply zero_linear_wf |]].
    apply (const_linear_wf 20 500 0 (-1)).
  - exact (shape_repeat (zeros (28 * 28)) 1).
Defined.

(** X25. For a decoder built by [Decoder(hidden_dim, z_dim)] and a batch
    of [B] latent vectors, [Decoder.forward] returns a tensor of shape
    [B, 784], as its docstring says. *)
Theorem decoder_output_shape
        (hidden_dim z_dim B : nat) (d : VAEMore.Decoder) (input : mat) :
  wf_decoder hidden_dim z_dim d -> shape input B z_dim ->
  shape (VAEMore.Decoder_forward d input) B (28 * 28).
Proof.
  intros (H1 & H2) [HB _]. unfold VAEMore.Decoder_forward.
  apply ReLU_shape. apply Linear_forward_shape with (n_in := hidden_dim); [exact H2 |].
  apply (ReLU_shape B hidden_dim).
  now apply Linear_forward_shape with (n_in := z_dim).
Qed.

Lemma decoder_output_shape_witness :
  shape (VAEMore.Decoder_forward
           {| VAEMore.linear1 := const_linear 500 20 1 0;
              VAEMore.linear2 := const_linear (28 * 28) 500 1 (-1) |}
           (repeat (repeat (Fin 1) 20) 2)) 2 (28 * 28).
Proof.
  apply (decoder_output_shape 500 20 2).
  - split; apply const_linear_wf.
  - exact (shape_repeat (repeat (Fin 1) 20) 2).
Defined.

(** * The training pass *)

Section TrainingPass.

Variable Opt : Type.
Variable update : Model -> Opt -> mat -> mat -> Model * Opt.

Lemma loop_train (data : list (mat * mat)) :
  forall k st,
    NFTrain.training (NFTrain.world Opt st) = true ->
    NFTrain.world Opt
      (fold_left (NFTrain.loop_body Opt update)
                 (combine (seq k (length data)) data) st)
    = {| NFTrain.model :=
           fst (fold_left (fun mo b => update (fst mo) (snd mo) (fst b) (snd b))
                          data
                          (NFTrain.model (NFTrain.world Opt st),
                           NFTrain.optimizer (NFTrain.world Opt st)));
         NFTrain.training := true;
         NFTrain.optimizer :=
           snd (fold_left (fun mo b => update (fst mo) (snd mo) (fst b) (snd b))
                          data
                          (NFTrain.model (NFTrain.world Opt st),
                           NFTrain.optimizer (NFTrain.world Opt st))) |}.
Proof.
  induction data as [| b data IH]; intros k st Htr.
  - cbn [length seq combine fold_left fst snd].
    destruct (NFTrain.world Opt st) as [m t o]. cbn in Htr. now subst.
  - cbn [length seq combine fold_left].
    rewrite IH.
    + unfold NFTrain.loop_body. cbn [NFTrain.world fst snd]. rewrite Htr.
      cbn [NFTrain.model NFTrain.optimizer].
      rewrite <- surjective_pairing. reflexivity.
    + unfold NFTrain.loop_body. cbn [NFTrain.world]. rewrite Htr.
      cbn [NFTrain.training]. reflexivity.
Qed.

(** X26. In training mode [epoch_iter] applies the gradient step exactly
    once per batch, in data order, each step starting from the parameters
    and optimizer state the previous one left; the mode flag stays set. *)
Theorem nf_epoch_iter_training_mode
        (w : NFTrain.World Opt) (data : list (mat * mat)) :
  NFTrain.training w = true ->
  fst (NFTrain.epoch_iter Opt update w data)
  = {| NFTrain.model :=
         fst (fold_left (fun mo b => update (fst mo) (snd mo) (fst b) (snd b))
                        data (NFTrain.model w, NFTrain.optimizer w));
       NFTrain.training := true;
       NFTrain.optimizer :=
         snd (fold_left (fun mo b => update (fst mo) (snd mo) (fst b) (snd b))
                        data (NFTrain.model w, NFTrain.optimizer w)) |}.
Proof.
  intros Htr. unfold NFTrain.epoch_iter.
  pose proof (loop_train data 0
                {| NFTrain.world := w; NFTrain.avg_bpd := Fin 0;
                   NFTrain.idx := None |} Htr) as H.
  cbn [NFTrain.world] in H.
  destruct (NFTrain.idx Opt _); cbn [fst]; exact H.
Qed.

End TrainingPass.

Lemma nf_epoch_iter_training_mode_witness :
  let w := {| NFTrain.model := {| flow := small_flow |};
              NFTrain.training := true; NFTrain.optimizer := 0%nat |} in
  let data := [([[Fin 2; Fin 3]], [[Fin (1 / 2); Fin (1 / 2)]]);
               ([[Fin 5; Fin 7]], [[Fin 0; Fin 0]])] in
  let update := fun (m : Model) (o : nat) (_ _ : mat) => (m, S o) in
  fst (NFTrain.epoch_iter nat update w data)
  = {| NFTrain.model :=
         fst (fold_left (fun mo b => update (fst mo) (snd mo) (fst b) (snd b))
                        data (NFTrain.model w, NFTrain.optimizer w));
       NFTrain.training := true;
       NFTrain.optimizer :=
         snd (fold_left (fun mo b => update (fst mo) (snd mo) (fst b) (snd b))
                        data (NFTrain.model w, NFTrain.optimizer w)) |}.
Proof.
  apply (nf_epoch_iter_training_mode nat
           (fun (m : Model) (o : nat) (_ _ : mat) => (m, S o))).
  reflexivity.
Defined.
